(** * Stellar-Save: the ROSCA contract's contribution and lifecycle core

    A shallow embedding of the Soroban contract functions documented in the
    repository (contribute, is_cycle_deadline_passed, is_group_active,
    create_group, format_group_id) over a model of the contract's
    persistent key-value storage, followed by the properties proved of
    them. *)

From Stdlib Require Import ZArith Lia Ascii String.
From stdpp Require Import base gmap strings list fin_maps.

Local Open Scope Z_scope.

(** ** Machine integers

    Rust's u32, u64 and i128 are integers of Z together with their range.
    The workspace builds with overflow checks (IMPLEMENTATION_SUMMARY,
    Security Features: Overflow Protection), so [a + b] on a machine type
    traps when the mathematical sum leaves the range. *)

Definition u32_MAX : Z := 2 ^ 32 - 1.
Definition u64_MAX : Z := 2 ^ 64 - 1.
Definition i128_MIN : Z := - 2 ^ 127.
Definition i128_MAX : Z := 2 ^ 127 - 1.

Definition in_u32 (n : Z) : bool := (0 <=? n) && (n <=? u32_MAX).
Definition in_u64 (n : Z) : bool := (0 <=? n) && (n <=? u64_MAX).
Definition in_i128 (n : Z) : bool := (i128_MIN <=? n) && (n <=? i128_MAX).

(** A Soroban [Address] is an opaque identity. *)
Abbreviation Address := N (only parsing).

(** ** Entities *)

(** Modelled from the spec: the enum [GroupStatus] is declared in
    group.rs / types.rs, which are not among the sources. Its variants are
    those of the data model (Forming, Active, Completed, Cancelled). *)
Inductive GroupStatus := Forming | Active | Completed | Cancelled.

(** [contribute] names the initial variant [GroupStatus::Pending]; it is the
    data model's Forming under the stellar-save crate's name. *)
Definition Pending : GroupStatus := Forming.

#[global] Instance GroupStatus_eq_dec : EqDecision GroupStatus.
Proof. solve_decision. Defined.

(** Modelled from the spec: [GroupStatus::accepts_contributions] and
    [allows_activation] (the status policy) are not among the sources;
    the first is true only for Active, the second only for Forming. *)
Definition accepts_contributions (status : GroupStatus) : bool :=
  match status with
  | Active => true
  | _ => false
  end.

Definition allows_activation (status : GroupStatus) : bool :=
  match status with
  | Forming => true
  | _ => false
  end.

(** Modelled from the spec: the struct [Group] is not among the sources;
    its fields are those of the data model. [started_at] is [None] until
    the group is activated. *)
Record Group := mkGroup {
  group_id : Z;                (* u64 *)
  admin : Address;
  name : string;
  contribution_amount : Z;     (* i128 *)
  cycle_duration : Z;          (* u64, seconds *)
  max_members : Z;             (* u32 *)
  member_count : Z;            (* u32 *)
  current_cycle : Z;           (* u32 *)
  started_at : option Z        (* u64 timestamp, set on activation *)
}.

(** Modelled from the spec: the struct [ContributionRecord] and its
    constructor [new] are not among the sources; the fields are the five
    arguments [contribute] passes to [ContributionRecord::new]. *)
Module ContributionRecord.

Record t := mk {
  contributor : Address;
  group_id : Z;
  cycle : Z;
  amount : Z;
  contributed_at : Z
}.

Definition new (contributor : Address) (group_id cycle amount timestamp : Z) : t :=
  mk contributor group_id cycle amount timestamp.

End ContributionRecord.

(** The error taxonomy of the contract. *)
Inductive StellarSaveError :=
| GroupNotFound
| NotMember
| InvalidState
| InvalidAmount
| InvalidConfig
| AlreadyContributed.

(** ** Storage keys

    Modelled from the spec: [StorageKeyBuilder] is not among the sources.
    Every key embeds a domain discriminant, here the constructor, followed
    by the numeric fields and the address it is built from. *)
Inductive StorageKey :=
| member_profile (group_id : Z) (address : Address)
| group_data (group_id : Z)
| group_status (group_id : Z)
| contribution_individual (group_id : Z) (cycle : Z) (address : Address)
| contribution_cycle_total (group_id : Z) (cycle : Z)
| contribution_cycle_count (group_id : Z) (cycle : Z).

#[global] Instance StorageKey_eq_dec : EqDecision StorageKey.
Proof. solve_decision. Defined.

Definition StorageKey_encode (k : StorageKey) : nat * Z * Z * N :=
  match k with
  | member_profile g a => (0%nat, g, 0, a)
  | group_data g => (1%nat, g, 0, 0%N)
  | group_status g => (2%nat, g, 0, 0%N)
  | contribution_individual g c a => (3%nat, g, c, a)
  | contribution_cycle_total g c => (4%nat, g, c, 0%N)
  | contribution_cycle_count g c => (5%nat, g, c, 0%N)
  end.

Definition StorageKey_decode (t : nat * Z * Z * N) : StorageKey :=
  match t with
  | (0%nat, g, _, a) => member_profile g a
  | (1%nat, g, _, _) => group_data g
  | (2%nat, g, _, _) => group_status g
  | (3%nat, g, c, a) => contribution_individual g c a
  | (4%nat, g, c, _) => contribution_cycle_total g c
  | (_, g, c, _) => contribution_cycle_count g c
  end.

#[global] Instance StorageKey_countable : Countable StorageKey.
Proof.
  apply (inj_countable' StorageKey_encode StorageKey_decode).
  intros k. destruct k; reflexivity.
Defined.

(** ** Stored values

    The host stores untyped values; [get::<_, T>] converts the value found
    to [T] and traps when it is of another type. *)
Inductive StorageVal :=
| VMember
| VGroup (g : Group)
| VStatus (s : GroupStatus)
| VContribution (r : ContributionRecord.t)
| VI128 (n : Z)
| VU32 (n : Z).

Definition as_group (v : StorageVal) : option Group :=
  match v with VGroup g => Some g | _ => None end.
Definition as_status (v : StorageVal) : option GroupStatus :=
  match v with VStatus s => Some s | _ => None end.
Definition as_i128 (v : StorageVal) : option Z :=
  match v with VI128 n => Some n | _ => None end.
Definition as_u32 (v : StorageVal) : option Z :=
  match v with VU32 n => Some n | _ => None end.

(** ** Events *)
Inductive Event :=
| ContributionMade (group_id : Z) (contributor : Address) (amount cycle cycle_total contributed_at : Z)
| CycleComplete (group_id : Z) (cycle : Z).

#[global] Instance Event_eq_dec : EqDecision Event.
Proof. solve_decision. Defined.

(** ** The environment of an invocation

    [ledger_timestamp] and [authorized] are fixed by the host for one
    invocation; [storage] is the contract's persistent store and [events]
    the log of published events, oldest first. *)
Record Env := mkEnv {
  ledger_timestamp : Z;
  authorized : gset N;
  storage : gmap StorageKey StorageVal;
  events : list Event
}.

Definition with_storage (env : Env) (s : gmap StorageKey StorageVal) : Env :=
  mkEnv (ledger_timestamp env) (authorized env) s (events env).

Definition with_events (env : Env) (l : list Event) : Env :=
  mkEnv (ledger_timestamp env) (authorized env) (storage env) l.

(** ** The contract monad

    A contract function returns [Ok], returns one of the contract's errors,
    or traps ([Panic]: a failed [require_auth], a value of the wrong type,
    an arithmetic overflow). The environment is threaded through, so the
    storage at the moment of an early return is visible. *)
Inductive Result (A : Type) :=
| Ok (a : A)
| Err (e : StellarSaveError)
| Panic.
Arguments Ok {A} a.
Arguments Err {A} e.
Arguments Panic {A}.

Definition Contract (A : Type) : Type := Env -> Result A * Env.

Definition ret {A} (a : A) : Contract A := fun env => (Ok a, env).
Definition fail {A} (e : StellarSaveError) : Contract A := fun env => (Err e, env).
Definition panic {A} : Contract A := fun env => (Panic, env).

Definition bind {A B} (m : Contract A) (k : A -> Contract B) : Contract B :=
  fun env =>
    match m env with
    | (Ok a, env') => k a env'
    | (Err e, env') => (Err e, env')
    | (Panic, env') => (Panic, env')
    end.

Declare Scope contract_scope.
Delimit Scope contract_scope with contract.
Notation "x <- m ;; k" := (bind m (fun x => k))
  (at level 100, m at next level, right associativity) : contract_scope.
Notation "m ;;; k" := (bind m (fun _ => k))
  (at level 100, right associativity) : contract_scope.
Local Open Scope contract_scope.

(** [env.storage().persistent()]: has, get, set. *)
Definition storage_has (key : StorageKey) : Contract bool :=
  fun env => (Ok (bool_decide (is_Some (storage env !! key))), env).

Definition storage_get {T} (conv : StorageVal -> option T) (key : StorageKey)
  : Contract (option T) :=
  fun env =>
    match storage env !! key with
    | None => (Ok None, env)
    | Some v =>
        match conv v with
        | Some t => (Ok (Some t), env)
        | None => (Panic, env)
        end
    end.

Definition storage_set (key : StorageKey) (v : StorageVal) : Contract unit :=
  fun env => (Ok tt, with_storage env (<[key := v]> (storage env))).

(** [env.events().publish]. *)
Definition publish (e : Event) : Contract unit :=
  fun env => (Ok tt, with_events env (events env ++ [e])).

(** [address.require_auth()]: traps unless the address authorized the call. *)
Definition require_auth (a : Address) : Contract unit :=
  fun env => if bool_decide (a ∈ authorized env) then (Ok tt, env) else (Panic, env).

(** [env.ledger().timestamp()]. *)
Definition ledger_now : Contract Z := fun env => (Ok (ledger_timestamp env), env).

(** Modelled from the spec: [EventEmitter] is not among the sources;
    [emit_contribution_made] publishes ContributionMade with the six fields
    it is passed. *)
Definition emit_contribution_made (group_id : Z) (contributor : Address)
    (amount cycle cycle_total timestamp : Z) : Contract unit :=
  publish (ContributionMade group_id contributor amount cycle cycle_total timestamp).

(** Checked machine addition. *)
Definition i128_add (a b : Z) : Contract Z :=
  if in_i128 (a + b) then ret (a + b) else panic.
Definition u32_add (a b : Z) : Contract Z :=
  if in_u32 (a + b) then ret (a + b) else panic.

(** [Option::ok_or(e)?] and [Option::unwrap_or(d)]. *)
Definition ok_or {A} (o : option A) (e : StellarSaveError) : Contract A :=
  match o with Some a => ret a | None => fail e end.
Definition unwrap_or {A} (o : option A) (d : A) : A :=
  match o with Some a => a | None => d end.

(** ** contribute

    The eight steps of [contribute] (Contribute Function - Implementation
    Review), in the order of the source. The token transfer of step 5 is a
    placeholder comment in the source and has no effect. *)
Definition contribute (group_id : Z) (contributor : Address) : Contract unit :=
  (* 1. verify caller is member *)
  require_auth contributor ;;;
  let member_key := member_profile group_id contributor in
  is_member <- storage_has member_key ;;
  if negb is_member then fail NotMember else
  (* 2. verify group is active *)
  let group_key := group_data group_id in
  let status_key := group_status group_id in
  group_opt <- storage_get as_group group_key ;;
  group <- ok_or group_opt GroupNotFound ;;
  status_opt <- storage_get as_status status_key ;;
  let status := unwrap_or status_opt Pending in
  if negb (accepts_contributions status) then fail InvalidState else
  (* 3. check correct amount *)
  let amount := contribution_amount group in
  if amount <=? 0 then fail InvalidAmount else
  (* 4. check not already contributed this cycle *)
  let cycle := current_cycle group in
  let contrib_key := contribution_individual group_id cycle contributor in
  already <- storage_has contrib_key ;;
  if already then fail AlreadyContributed else
  (* 6. record contribution *)
  timestamp <- ledger_now ;;
  let contribution := ContributionRecord.new contributor group_id cycle amount timestamp in
  storage_set contrib_key (VContribution contribution) ;;;
  let total_key := contribution_cycle_total group_id cycle in
  total_opt <- storage_get as_i128 total_key ;;
  let current_total := unwrap_or total_opt 0 in
  new_total <- i128_add current_total amount ;;
  storage_set total_key (VI128 new_total) ;;;
  let count_key := contribution_cycle_count group_id cycle in
  count_opt <- storage_get as_u32 count_key ;;
  let current_count := unwrap_or count_opt 0 in
  new_stored_count <- u32_add current_count 1 ;;
  storage_set count_key (VU32 new_stored_count) ;;;
  (* 7. emit ContributionMade *)
  cycle_total <- i128_add current_total amount ;;
  emit_contribution_made group_id contributor amount cycle cycle_total timestamp ;;;
  (* 8. check if cycle complete *)
  new_count <- u32_add current_count 1 ;;
  (if new_count =? member_count group
   then publish (CycleComplete group_id cycle)
   else ret tt) ;;;
  ret tt.

(** ** Sequences of invocations

    One invocation runs in an environment whose timestamp and
    authorizations are those of the call and whose storage and event log
    are those left by the previous invocation. The host discards the
    writes of an invocation that traps. *)
Record Call := mkCall {
  call_group : Z;
  call_contributor : Address;
  call_time : Z;
  call_auth : gset N
}.

Definition enter (c : Call) (env : Env) : Env :=
  mkEnv (call_time c) (call_auth c) (storage env) (events env).

Definition invoke {A} (f : Contract A) (env : Env) : Result A * Env :=
  match f env with
  | (Panic, _) => (Panic, env)
  | r => r
  end.

Definition invoke_contribute (c : Call) (env : Env) : Result unit * Env :=
  invoke (contribute (call_group c) (call_contributor c)) (enter c env).

Fixpoint run (calls : list Call) (env : Env) : list (Result unit) * Env :=
  match calls with
  | [] => ([], env)
  | c :: rest =>
      let '(r, env1) := invoke_contribute c env in
      let '(rs, env2) := run rest env1 in
      (r :: rs, env2)
  end.

Definition is_ok {A} (r : Result A) : bool :=
  match r with Ok _ => true | _ => false end.

(** The number of accepted contributions to [group_id] among the calls. *)
Fixpoint accepted (group_id : Z) (calls : list Call) (results : list (Result unit)) : Z :=
  match calls, results with
  | c :: calls', r :: results' =>
      (if bool_decide (call_group c = group_id) && is_ok r then 1 else 0)
      + accepted group_id calls' results'
  | _, _ => 0
  end.

(** ** Reading the store

    [read_or conv d s key] is [get(key).unwrap_or(d)]: the default stands
    for an absent record, [None] for a value of another type (a trap). *)
Definition read_or {T} (conv : StorageVal -> option T) (d : T)
    (s : gmap StorageKey StorageVal) (key : StorageKey) : option T :=
  match s !! key with
  | None => Some d
  | Some v => conv v
  end.

Definition cycle_total (s : gmap StorageKey StorageVal) (group_id cycle : Z) : Z :=
  default 0 (read_or as_i128 0 s (contribution_cycle_total group_id cycle)).

Definition cycle_count (s : gmap StorageKey StorageVal) (group_id cycle : Z) : Z :=
  default 0 (read_or as_u32 0 s (contribution_cycle_count group_id cycle)).

(** The sum of the amounts, and the number, of the ContributionRecords
    stored for one cycle of one group: a record weighs its amount in the
    first, 1 in the second, and every other entry of the store 0. *)
Definition record_amount (group_id cycle : Z) (k : StorageKey) (v : StorageVal) : Z :=
  match k, v with
  | contribution_individual g c _, VContribution r =>
      if bool_decide (g = group_id /\ c = cycle) then ContributionRecord.amount r else 0
  | _, _ => 0
  end.

Definition record_unit (group_id cycle : Z) (k : StorageKey) (v : StorageVal) : Z :=
  match k, v with
  | contribution_individual g c _, VContribution r =>
      if bool_decide (g = group_id /\ c = cycle) then 1 else 0
  | _, _ => 0
  end.

Definition weigh (w : StorageKey -> StorageVal -> Z) (s : gmap StorageKey StorageVal) : Z :=
  map_fold (fun k v acc => acc + w k v) 0 s.

Definition records_total (s : gmap StorageKey StorageVal) (group_id cycle : Z) : Z :=
  weigh (record_amount group_id cycle) s.

Definition records_count (s : gmap StorageKey StorageVal) (group_id cycle : Z) : Z :=
  weigh (record_unit group_id cycle) s.

(** ** The outcome of contribute in direct style

    [contributed] is the environment a successful contribution leaves, and
    [contribute_outcome] the decision tree of [contribute] over the storage
    it is entered with; [contribute_outcome_correct] relates it to the
    monadic text. *)
Definition contributed (env : Env) (group_id : Z) (contributor : Address) (g : Group)
    (total count : Z) : Env :=
  let cycle := current_cycle g in
  let amount := contribution_amount g in
  mkEnv (ledger_timestamp env) (authorized env)
    (<[contribution_cycle_count group_id cycle := VU32 (count + 1)]>
      (<[contribution_cycle_total group_id cycle := VI128 (total + amount)]>
        (<[contribution_individual group_id cycle contributor :=
             VContribution (ContributionRecord.new contributor group_id cycle amount
                              (ledger_timestamp env))]>
           (storage env))))
    (events env ++
      ContributionMade group_id contributor amount cycle (total + amount) (ledger_timestamp env)
      :: (if count + 1 =? member_count g then [CycleComplete group_id cycle] else [])).

Definition contribute_outcome (group_id : Z) (contributor : Address) (env : Env) : Result Env :=
  let s := storage env in
  if bool_decide (contributor ∈ authorized env) then
    if bool_decide (is_Some (s !! member_profile group_id contributor)) then
      match s !! group_data group_id with
      | None => Err GroupNotFound
      | Some v =>
        match as_group v with
        | None => Panic
        | Some g =>
          match read_or as_status Pending s (group_status group_id) with
          | None => Panic
          | Some status =>
            if accepts_contributions status then
              if contribution_amount g <=? 0 then Err InvalidAmount else
              if bool_decide (is_Some (s !! contribution_individual group_id (current_cycle g) contributor))
              then Err AlreadyContributed else
              match read_or as_i128 0 s (contribution_cycle_total group_id (current_cycle g)) with
              | None => Panic
              | Some total =>
                if in_i128 (total + contribution_amount g) then
                  match read_or as_u32 0 s (contribution_cycle_count group_id (current_cycle g)) with
                  | None => Panic
                  | Some count =>
                    if in_u32 (count + 1)
                    then Ok (contributed env group_id contributor g total count)
                    else Panic
                  end
                else Panic
              end
            else Err InvalidState
          end
        end
      end
    else Err NotMember
  else Panic.

(** The conditions under which [contribute] accepts a contribution: the
    checks of steps 1 to 4 pass, the aggregates read as [total] and
    [count], and the two additions stay in range. *)
Record accepts (env : Env) (group_id : Z) (contributor : Address) (g : Group)
    (total count : Z) : Prop := mkAccepts {
  acc_auth : contributor ∈ authorized env;
  acc_member : is_Some (storage env !! member_profile group_id contributor);
  acc_group : storage env !! group_data group_id = Some (VGroup g);
  acc_status : exists status,
    read_or as_status Pending (storage env) (group_status group_id) = Some status /\
    accepts_contributions status = true;
  acc_amount : 0 < contribution_amount g;
  acc_fresh :
    storage env !! contribution_individual group_id (current_cycle g) contributor = None;
  acc_total :
    read_or as_i128 0 (storage env) (contribution_cycle_total group_id (current_cycle g))
    = Some total;
  acc_count :
    read_or as_u32 0 (storage env) (contribution_cycle_count group_id (current_cycle g))
    = Some count;
  acc_total_range : in_i128 (total + contribution_amount g) = true;
  acc_count_range : in_u32 (count + 1) = true
}.

(** The number of CycleComplete events for one cycle of one group in a log. *)
Definition completions (group_id cycle : Z) (log : list Event) : nat :=
  count_occ Event_eq_dec log (CycleComplete group_id cycle).

(** The cycle of a group can still complete: its record is stored with this
    current cycle and the stored count is below the member count. *)
Definition can_complete (s : gmap StorageKey StorageVal) (group_id cycle : Z) : Prop :=
  exists g n,
    s !! group_data group_id = Some (VGroup g) /\
    current_cycle g = cycle /\
    read_or as_u32 0 s (contribution_cycle_count group_id cycle) = Some n /\
    n < member_count g.

(** The aggregates and the records of the current cycle of a group agree
    on [n] contributions of the group's amount. *)
Record tally (s : gmap StorageKey StorageVal) (group_id : Z) (g : Group) (n : Z) : Prop :=
  mkTally {
  tally_group : s !! group_data group_id = Some (VGroup g);
  tally_total :
    read_or as_i128 0 s (contribution_cycle_total group_id (current_cycle g))
    = Some (n * contribution_amount g);
  tally_count :
    read_or as_u32 0 s (contribution_cycle_count group_id (current_cycle g)) = Some n;
  tally_records_total :
    records_total s group_id (current_cycle g) = n * contribution_amount g;
  tally_records_count : records_count s group_id (current_cycle g) = n
}.

(** ** is_cycle_deadline_passed

    Modelled from the spec: the body of [is_cycle_deadline_passed]
    (helpers.rs) is not among the sources, only its signature and the
    three steps of its Logic section (CYCLE_DEADLINE_HELPER): false if the
    group has not started, deadline = started_at + cycle_duration *
    (current_cycle + 1), true if current_time > deadline. The arithmetic
    is that of Z: the sources do not say what happens when the deadline
    leaves u64. *)
Definition is_cycle_deadline_passed (group : Group) (current_time : Z) : bool :=
  match started_at group with
  | None => false
  | Some started =>
      let cycle_deadline := started + cycle_duration group * (current_cycle group + 1) in
      current_time >? cycle_deadline
  end.

(** ** is_group_active

    Modelled from the spec: the body of [is_group_active] (lib.rs) is not
    among the sources, only its signature and its Logic list
    (IMPLEMENTATION_SUMMARY): GroupNotFound if the group does not exist,
    otherwise true when the status is Active and the member count is
    between 1 and max_members inclusive. The status is read as the data
    model stores it, with Forming for an absent record. *)
Definition is_group_active (group_id : Z) : Contract bool :=
  group_opt <- storage_get as_group (group_data group_id) ;;
  group <- ok_or group_opt GroupNotFound ;;
  status_opt <- storage_get as_status (group_status group_id) ;;
  let status := unwrap_or status_opt Forming in
  ret (bool_decide (status = Active)
       && (1 <=? member_count group)
       && (member_count group <=? max_members group)).

(** ** create_group

    Modelled from the spec: the body of [create_group] (lib.rs) is not
    among the sources, only its signature. It fails InvalidAmount if
    contribution_amount <= 0 and InvalidConfig if max_members < 1, in the
    order the spec names them, then persists two records under the id of
    the new group, the Group with current_cycle = 0 and the status Forming.
    On the id the sources have one statement, the note of
    IMPLEMENTATION_SUMMARY that group ids are generated from the ledger
    sequence: the id is [env.ledger().sequence()], the number of the ledger
    the invocation is included in, which the host fixes for the invocation.
    The member count of a new group is not given and is taken to be 0. *)
Section CreateGroup.

Variable ledger_sequence : Z.


End CreateGroup.

(** ** format_group_id

    Modelled from the spec: the body of [format_group_id] (helpers.rs) is
    not among the sources, only its signature and its Implementation
    Approach (IMPLEMENTATION summary of format_group_id): the u64 is
    converted to its digit bytes, the bytes of the prefix GROUP- are put in
    front, and the whole is converted to a string. The digits are produced
    from the least significant one by division by 10; a u64 has at most 20
    of them. *)
Definition digit_byte (d : Z) : ascii := ascii_of_nat (48 + Z.to_nat d).

Fixpoint push_digits (fuel : nat) (n : Z) (acc : list ascii) : list ascii :=
  match fuel with
  | O => acc
  | S fuel' =>
      if n =? 0 then acc
      else push_digits fuel' (n / 10) (digit_byte (n mod 10) :: acc)
  end.

Definition u64_digits (n : Z) : list ascii :=
  if n =? 0 then [digit_byte 0] else push_digits 20 n [].

Definition format_group_id (group_id : Z) : string :=
  ("GROUP-" +:+ string_of_list_ascii (u64_digits group_id))%string.

(** The number a list of decimal digit bytes denotes, and what makes such a
    list the decimal representation of a number: only digits, at least
    one, and no leading zero unless it is the single digit 0. *)
Definition is_digit (c : ascii) : bool :=
  (48 <=? nat_of_ascii c)%nat && (nat_of_ascii c <=? 57)%nat.

Definition decimal_value (ds : list ascii) : Z :=
  fold_left (fun acc c => 10 * acc + (Z.of_nat (nat_of_ascii c) - 48)) ds 0.

Definition is_decimal_of (ds : list ascii) (n : Z) : Prop :=
  forallb is_digit ds = true /\
  decimal_value ds = n /\
  match ds with
  | [] => False
  | [_] => True
  | c :: _ => c <> digit_byte 0
  end.

(** ** A sample group

    A group of two members (11 and 12) under id 7, active since 1000, with
    contribution amount 100 and cycles of 3600 seconds. *)
Definition sample_group : Group :=
  mkGroup 7 1%N "savers" 100 3600 3 2 0 (Some 1000).

Definition sample_storage : gmap StorageKey StorageVal :=
  <[member_profile 7 11%N := VMember]>
    (<[member_profile 7 12%N := VMember]>
      (<[group_data 7 := VGroup sample_group]>
        (<[group_status 7 := VStatus Active]> ∅))).

Definition sample_env : Env := mkEnv 1500 {[ 11%N; 12%N; 13%N ]} sample_storage [].

Definition sample_calls : list Call :=
  [mkCall 7 11%N 1500 {[ 11%N ]}; mkCall 7 11%N 1600 {[ 11%N ]};
   mkCall 7 12%N 1700 {[ 12%N ]}].

(** ** Further vocabulary for contribute

    [at_time env t] is the environment of an invocation made at ledger
    time [t] on the storage and event log of [env]. *)
Definition at_time (env : Env) (t : Z) : Env :=
  mkEnv t (authorized env) (storage env) (events env).

(** The contributors of the accepted contributions to [group_id] among the
    calls, in the order of the calls. *)
Fixpoint accepted_contributors (group_id : Z) (calls : list Call)
    (results : list (Result unit)) : list N :=
  match calls, results with
  | c :: calls', r :: results' =>
      (if bool_decide (call_group c = group_id) && is_ok r
       then [call_contributor c] else [])
      ++ accepted_contributors group_id calls' results'
  | _, _ => []
  end.

(** The number of ContributionMade events of [group_id] in a log. *)
Definition is_made_for (group_id : Z) (e : Event) : bool :=
  match e with
  | ContributionMade g _ _ _ _ _ => bool_decide (g = group_id)
  | CycleComplete _ _ => false
  end.

Definition made_for (group_id : Z) (log : list Event) : Z :=
  Z.of_nat (length (filter (fun e => is_made_for group_id e = true) log)).



(** The keys [contribute] only reads: group records, statuses and member
    profiles. *)
Definition is_config_key (k : StorageKey) : bool :=
  match k with
  | member_profile _ _ | group_data _ | group_status _ => true
  | _ => false
  end.

(** The group a key belongs to. *)
Definition key_group (k : StorageKey) : Z :=
  match k with
  | member_profile g _ | group_data g | group_status g
  | contribution_individual g _ _ | contribution_cycle_total g _
  | contribution_cycle_count g _ => g
  end.

(** ** The front end: Pagination

    The [Pagination] component over integer props; a page
    entry is a page number or the string '...'. JavaScript numbers are
    doubles: on integers below 2^53 the sums, products, comparisons and
    [Math.floor(n / 2)] of the source are those of Z. *)
Inductive PageItem :=
| PageNumber (n : Z)
| Ellipsis.

#[global] Instance PageItem_eq_dec : EqDecision PageItem.
Proof. solve_decision. Defined.

Definition safePage (currentPage totalPages : Z) : Z :=
  Z.max 1 (Z.min currentPage totalPages).

Definition handlePageChange (currentPage totalPages : Z) (disabled : bool) (page : Z)
  : option Z :=
  if (page <? 1) || (totalPages <? page) || (page =? currentPage) || disabled
  then None
  else Some page.

Definition getVisiblePages (currentPage totalPages maxVisiblePages : Z) : list PageItem :=
  let safePage := safePage currentPage totalPages in
  if totalPages <=? maxVisiblePages then
    (fun i => PageNumber (i + 1)) <$> seqZ 0 totalPages
  else
    let halfVisible := maxVisiblePages / 2 in
    let startPage := Z.max 1 (safePage - halfVisible) in
    let endPage := Z.min totalPages (safePage + halfVisible) in
    let '(startPage, endPage) :=
      if safePage <=? halfVisible then (startPage, Z.min totalPages maxVisiblePages)
      else if totalPages - halfVisible <=? safePage
           then (Z.max 1 (totalPages - maxVisiblePages + 1), endPage)
           else (startPage, endPage) in
    (if 1 <? startPage
     then PageNumber 1 :: (if 2 <? startPage then [Ellipsis] else [])
     else [])
    ++ (PageNumber <$> seqZ startPage (endPage - startPage + 1))
    ++ (if endPage <? totalPages
        then (if endPage <? totalPages - 1 then [Ellipsis] else [])
             ++ [PageNumber totalPages]
        else []).

Definition startItem (currentPage totalPages pageSize totalItems : Z) : Z :=
  if totalItems =? 0 then 0
  else (safePage currentPage totalPages - 1) * pageSize + 1.

Definition endItem (currentPage totalPages pageSize totalItems : Z) : Z :=
  Z.min (safePage currentPage totalPages * pageSize) totalItems.

(** A list of page entries that starts after page [prev]: consecutive
    page numbers, an ellipsis only where at least one page is left out. *)
Fixpoint marks_gaps (prev : Z) (pages : list PageItem) : Prop :=
  match pages with
  | [] => True
  | PageNumber n :: rest => n = prev + 1 /\ marks_gaps n rest
  | Ellipsis :: rest =>
      match rest with
      | PageNumber n :: rest' => prev + 2 <= n /\ marks_gaps n rest'
      | _ => False
      end
  end.

(** ** The front end: GroupList

    [Array.prototype.slice] on integer bounds, and the pagination of
    the [GroupList] component. [Math.ceil(n / pageSize)] is
    the ceiling of the quotient for pageSize <> 0 (the source computes
    Infinity or NaN for pageSize = 0). *)
Definition slice {A} (l : list A) (start final : Z) : list A :=
  let len := Z.of_nat (length l) in
  let k := if start <? 0 then Z.max (len + start) 0 else Z.min start len in
  let final := if final <? 0 then Z.max (len + final) 0 else Z.min final len in
  take (Z.to_nat (final - k)) (drop (Z.to_nat k) l).

Definition Math_ceil_div (a b : Z) : Z := - ((- a) / b).

Definition paginatedGroups {A} (sortedGroups : list A) (currentPage pageSize : Z)
    (showPagination : bool) : list A :=
  if negb showPagination then sortedGroups
  else
    let startIndex := (currentPage - 1) * pageSize in
    let endIndex := startIndex + pageSize in
    slice sortedGroups startIndex endIndex.

Definition totalPages {A} (sortedGroups : list A) (pageSize : Z) : Z :=
  Math_ceil_div (Z.of_nat (length sortedGroups)) pageSize.

(** ** The front end: keyboard navigation of Tabs

    [handleKeyDown] of the [Tabs] component. A tab is its id and
    its disabled flag (label, content and icon are only rendered); the
    result is the id handed to [setInternalActiveTab] / [onChange] and
    focused, if any. [%] is JavaScript's remainder, NaN for a zero
    divisor, and an array read at NaN or outside the array is undefined. *)
Record Tab := mkTab {
  tab_id : string;
  tab_disabled : bool
}.

Inductive Orientation := horizontal | vertical.

Inductive Key :=
| KeyArrowRight | KeyArrowLeft | KeyArrowDown | KeyArrowUp | KeyHome | KeyEnd
| KeyOther.

#[global] Instance Orientation_eq_dec : EqDecision Orientation.
Proof. solve_decision. Defined.

#[global] Instance Key_eq_dec : EqDecision Key.
Proof. solve_decision. Defined.

Fixpoint findIndex {A} (p : A -> bool) (l : list A) : Z :=
  match l with
  | [] => -1
  | x :: rest =>
      if p x then 0
      else let i := findIndex p rest in if i <? 0 then -1 else i + 1
  end.

Definition js_rem (a b : Z) : option Z :=
  if b =? 0 then None else Some (Z.rem a b).

Definition array_get {A} (l : list A) (index : option Z) : option A :=
  match index with
  | Some i => if i <? 0 then None else l !! Z.to_nat i
  | None => None
  end.

Definition handleTabClick (tabId : string) (disabled : bool) : option string :=
  if disabled then None else Some tabId.

Definition handleKeyDown (tabs : list Tab) (orientation : Orientation) (key : Key)
    (currentIndex : nat) : option string :=
  let enabledTabs := filter (fun tab => tab_disabled tab = false) tabs in
  match tabs !! currentIndex with
  | None => None
  | Some current =>
      let currentEnabledIndex :=
        findIndex (fun tab => bool_decide (tab_id tab = tab_id current)) enabledTabs in
      let len := Z.of_nat (length enabledTabs) in
      let isHorizontal := bool_decide (orientation = horizontal) in
      let nextIndex :=
        if bool_decide (key = if isHorizontal then KeyArrowRight else KeyArrowDown)
        then Some (js_rem (currentEnabledIndex + 1) len)
        else if bool_decide (key = if isHorizontal then KeyArrowLeft else KeyArrowUp)
        then Some (js_rem (currentEnabledIndex - 1 + len) len)
        else if bool_decide (key = KeyHome) then Some (Some 0)
        else if bool_decide (key = KeyEnd) then Some (Some (len - 1))
        else None in
      match nextIndex with
      | None => None
      | Some index =>
          match array_get enabledTabs index with
          | Some nextTab => handleTabClick (tab_id nextTab) (tab_disabled nextTab)
          | None => None
          end
      end
  end.

(** The keys [handleKeyDown] handles in an orientation. *)
Definition forward_key (o : Orientation) : Key :=
  if bool_decide (o = horizontal) then KeyArrowRight else KeyArrowDown.
Definition backward_key (o : Orientation) : Key :=
  if bool_decide (o = horizontal) then KeyArrowLeft else KeyArrowUp.
Definition is_navigation_key (o : Orientation) (key : Key) : bool :=
  bool_decide (key = forward_key o) || bool_decide (key = backward_key o)
  || bool_decide (key = KeyHome) || bool_decide (key = KeyEnd).

(** ** The front end: JoinGroupButton

    What the [JoinGroupButton] component renders, from
    its props, the wallet status and its state: a disabled button with a
    label, the confirmation dialog (its two buttons are disabled while
    loading; the error is shown when it is a non-empty string), or the
    Join Group button with its disabled flag. *)
Inductive JoinView :=
| DisabledButton (label : string)
| ConfirmDialog (loading : bool) (shown_error : option string)
| JoinButton (disabled : bool).

Definition isFull (maxMembers currentMembers : Z) : bool :=
  maxMembers <=? currentMembers.

Definition isEligible (maxMembers currentMembers : Z) (isActive isMember : bool)
    (walletStatus : string) : bool :=
  negb isMember && negb (isFull maxMembers currentMembers) && negb isActive
  && bool_decide (walletStatus = "connected"%string).

Definition JoinGroupButton (maxMembers currentMembers : Z) (isActive isMember : bool)
    (walletStatus : string) (loading : bool) (error : option string) (showConfirm : bool)
  : JoinView :=
  if isMember then DisabledButton "Already Joined"
  else if isFull maxMembers currentMembers then DisabledButton "Group Full"
  else if isActive then DisabledButton "Group Active"
  else if negb (bool_decide (walletStatus = "connected"%string))
  then DisabledButton "Connect Wallet"
  else if showConfirm then
    ConfirmDialog loading
      (match error with
       | Some e => if bool_decide (e = ""%string) then None else Some e
       | None => None
       end)
  else JoinButton (negb (isEligible maxMembers currentMembers isActive isMember walletStatus)).

(** ** The front end: CycleProgress

    [timeRemaining] is the callback the [CycleProgress] component hands to
    useMemo and [isOverdue] the comparison of line 42, from the deadline
    and a clock read in milliseconds ([getTime()]), which are integers; the
    quotients and remainders of the source are exact on differences below
    2^53. A number in a template literal is printed in decimal. The
    callback and the comparison read the clock separately; the component
    with its memo cell follows below. *)
Definition number_to_string (n : Z) : string :=
  string_of_list_ascii
    (if n =? 0 then [digit_byte 0] else push_digits (S (Z.to_nat (Z.log2 n))) n []).

Definition timeRemaining (deadline now : Z) : string :=
  let diff := deadline - now in
  if diff <=? 0 then "Ended"%string
  else
    let days := diff / (1000 * 60 * 60 * 24) in
    let hours := (diff mod (1000 * 60 * 60 * 24)) / (1000 * 60 * 60) in
    if 0 <? days
    then (number_to_string days +:+ "d " +:+ number_to_string hours +:+ "h")%string
    else if 0 <? hours then (number_to_string hours +:+ "h")%string
    else
      let minutes := (diff mod (1000 * 60 * 60)) / (1000 * 60) in
      (number_to_string minutes +:+ "m")%string.

Definition isOverdue (deadline now : Z) : bool := deadline <? now.

(** The component over its renders. The deadline prop is a Date object:
    [date_object] is the object, which is what the dependency comparison of
    useMemo ([Object.is]) tells apart, and [getTime] the time value of a
    valid date. A render reads the clock twice: in the callback of useMemo
    (line 25), when the callback runs, and for [isOverdue] (line 42). *)
Record Date := mkDate { date_object : N; getTime : Z }.

Record Render := mkRender {
  render_deadline : Date;
  memo_clock : Z;
  render_clock : Z
}.

(** [useMemo(callback, [deadline])]: the cell keeps the dependency and the
    value of the last run of the callback; the callback runs at the first
    render and whenever the deadline is another object than at the render
    before. *)
Definition useMemo_timeRemaining (cell : option (N * string)) (r : Render) : N * string :=
  let deadline := render_deadline r in
  match cell with
  | Some (dependency, value) =>
      if bool_decide (dependency = date_object deadline) then (dependency, value)
      else (date_object deadline, timeRemaining (getTime deadline) (memo_clock r))
  | None => (date_object deadline, timeRemaining (getTime deadline) (memo_clock r))
  end.

(** What a render shows: the text of the time value and whether the
    time is marked overdue. *)
Record CycleProgressView := mkCycleProgressView {
  time_value : string;
  overdue : bool
}.

Definition CycleProgress (cell : option (N * string)) (r : Render)
  : option (N * string) * CycleProgressView :=
  let memo := useMemo_timeRemaining cell r in
  (Some memo,
   mkCycleProgressView (snd memo) (isOverdue (getTime (render_deadline r)) (render_clock r))).

(** The memo cell after the renders [rs] since the component was
    mounted. *)
Definition rendered (rs : list Render) : option (N * string) :=
  foldl (fun cell r => fst (CycleProgress cell r)) None rs.

(** ** The front end: the page state of GroupList

    The state [GroupList] keeps (search query, current page, page size,
    sort configuration) and its handlers: [handleSearch], [handleSort] and
    [handlePageSizeChange] reset the page to 1; a click in [Pagination]
    reaches [setCurrentPage] through [handlePageChange], with totalPages
    computed from the list and the page size of the moment. The list shown
    for a query and a sort configuration (filter, then sort) is a
    parameter. *)
Inductive SortField := SortName | SortMemberCount | SortCreatedAt.
Inductive SortOrder := asc | desc.

#[global] Instance SortField_eq_dec : EqDecision SortField.
Proof. solve_decision. Defined.
#[global] Instance SortOrder_eq_dec : EqDecision SortOrder.
Proof. solve_decision. Defined.

Record GroupListState := mkGroupListState {
  searchQuery : string;
  currentPage : Z;
  pageSize : Z;
  sortField : SortField;
  sortOrder : SortOrder
}.

Definition handleSearch (value : string) (st : GroupListState) : GroupListState :=
  mkGroupListState value 1 (pageSize st) (sortField st) (sortOrder st).

Definition handleSort (field : SortField) (st : GroupListState) : GroupListState :=
  mkGroupListState (searchQuery st) 1 (pageSize st) field
    (if bool_decide (sortField st = field) && bool_decide (sortOrder st = asc)
     then desc else asc).

Definition handlePageSizeChange (newPageSize : Z) (st : GroupListState) : GroupListState :=
  mkGroupListState (searchQuery st) 1 newPageSize (sortField st) (sortOrder st).

Inductive GroupListAction :=
| Search (value : string)
| Sort (field : SortField)
| ChoosePageSize (newPageSize : Z)
| ClickPage (page : Z).

Section GroupListPages.

Context {A : Type}.
Variable sortedGroups : string -> SortField -> SortOrder -> list A.

Definition shownGroups (st : GroupListState) : list A :=
  sortedGroups (searchQuery st) (sortField st) (sortOrder st).

Definition clickPage (page : Z) (st : GroupListState) : GroupListState :=
  match handlePageChange (currentPage st) (totalPages (shownGroups st) (pageSize st))
          false page with
  | Some p => mkGroupListState (searchQuery st) p (pageSize st) (sortField st) (sortOrder st)
  | None => st
  end.

Definition groupList_step (st : GroupListState) (a : GroupListAction) : GroupListState :=
  match a with
  | Search value => handleSearch value st
  | Sort field => handleSort field st
  | ChoosePageSize n => handlePageSizeChange n st
  | ClickPage page => clickPage page st
  end.

Definition groupList_after (actions : list GroupListAction) (st : GroupListState)
  : GroupListState :=
  fold_left groupList_step actions st.

Definition shownPage (st : GroupListState) : list A :=
  paginatedGroups (shownGroups st) (currentPage st) (pageSize st) true.

Definition page_valid (st : GroupListState) : Prop :=
  1 <= pageSize st /\
  (currentPage st = 1 \/
   1 <= currentPage st <= totalPages (shownGroups st) (pageSize st)).

End GroupListPages.

(** The page sizes chosen in a sequence of actions are at least 1. *)
Definition positive_page_sizes (actions : list GroupListAction) : Prop :=
  Forall (fun a => match a with ChoosePageSize n => 1 <= n | _ => True end) actions.

(** ** Samples for the further properties *)
Definition sample_closed_env : Env :=
  mkEnv 1500 {[ 11%N; 12%N ]} (<[group_status 7 := VStatus Forming]> sample_storage) [].

Definition sample_free_env : Env :=
  mkEnv 1500 {[ 11%N ]}
    (<[group_data 7 := VGroup (mkGroup 7 1%N "savers" 0 3600 3 2 0 (Some 1000))]>
       sample_storage) [].

Definition sample_tabs : list Tab :=
  [mkTab "overview" false; mkTab "members" true; mkTab "history" false].

Definition sample_groups : list Z := [1; 2; 3; 4; 5; 6; 7].

Definition sample_actions : list GroupListAction :=
  [ChoosePageSize 3; ClickPage 3; Sort SortName; ClickPage 2; Search "sav"].

(** * Properties *)

(** ** contribute and its decision tree *)

Ltac contract_step :=
  unfold bind, ret, fail, panic, ok_or, unwrap_or, storage_has, storage_get, storage_set,
    emit_contribution_made, publish, require_auth, ledger_now, i128_add, u32_add,
    with_storage, with_events;
  cbn [storage events ledger_timestamp authorized fst snd negb andb];
  rewrite ?lookup_insert_ne by done.

Lemma contribute_outcome_correct group_id contributor env :
  match contribute_outcome group_id contributor env with
  | Ok env' => contribute group_id contributor env = (Ok tt, env')
  | Err e => contribute group_id contributor env = (Err e, env)
  | Panic => fst (contribute group_id contributor env) = Panic
  end.
Proof.
  destruct env as [ts auth s ev].
  unfold contribute_outcome, contribute, read_or, contributed. contract_step.
  destruct (bool_decide (contributor ∈ auth)); contract_step; [|done].
  destruct (bool_decide (is_Some (s !! member_profile group_id contributor)));
    contract_step; [|done].
  destruct (s !! group_data group_id) as [v|]; contract_step; [|done].
  destruct (as_group v) as [g|]; contract_step; [|done].
  destruct (s !! group_status group_id) as [v'|];
    [destruct (as_status v') as [status|]|]; contract_step; try done.
  all: match goal with |- context [accepts_contributions ?st] =>
         destruct (accepts_contributions st) end; contract_step; try done.
  all: destruct (contribution_amount g <=? 0); contract_step; try done.
  all: destruct (bool_decide (is_Some (s !! contribution_individual group_id
                                             (current_cycle g) contributor)));
         contract_step; try done.
  all: destruct (s !! contribution_cycle_total group_id (current_cycle g)) as [vt|];
         [destruct (as_i128 vt) as [total|]|]; contract_step; try done.
  all: match goal with |- context [in_i128 ?x] => destruct (in_i128 x) end;
         contract_step; try done.
  all: destruct (s !! contribution_cycle_count group_id (current_cycle g)) as [vc|];
         [destruct (as_u32 vc) as [count|]|]; contract_step; try done.
  all: match goal with |- context [in_u32 ?x] => destruct (in_u32 x) end;
         contract_step; try done.
  all: match goal with |- context [?x =? ?y] => destruct (x =? y) end;
         contract_step; try done.
  all: rewrite <- ?app_assoc; done.
Qed.

(** What [contribute] returns determines the branch of the decision tree,
    and an error is returned in the environment the call was entered with. *)
Lemma contribute_outcome_of group_id contributor env r env' :
  contribute group_id contributor env = (r, env') ->
  match r with
  | Ok _ => contribute_outcome group_id contributor env = Ok env'
  | Err e => contribute_outcome group_id contributor env = Err e /\ env' = env
  | Panic => contribute_outcome group_id contributor env = Panic
  end.
Proof.
  intros H. pose proof (contribute_outcome_correct group_id contributor env) as Hc.
  destruct (contribute_outcome group_id contributor env) as [env1|e1|];
    rewrite H in Hc; destruct r; simplify_eq/=; done.
Qed.

Lemma as_group_Some v g : as_group v = Some g <-> v = VGroup g.
Proof. destruct v; simpl; split; intros; simplify_eq; done. Qed.
Lemma as_status_Some v st : as_status v = Some st <-> v = VStatus st.
Proof. destruct v; simpl; split; intros; simplify_eq; done. Qed.
Lemma as_i128_Some v n : as_i128 v = Some n <-> v = VI128 n.
Proof. destruct v; simpl; split; intros; simplify_eq; done. Qed.
Lemma as_u32_Some v n : as_u32 v = Some n <-> v = VU32 n.
Proof. destruct v; simpl; split; intros; simplify_eq; done. Qed.

Lemma contribute_outcome_Ok group_id contributor env env' :
  contribute_outcome group_id contributor env = Ok env' <->
  exists g total count,
    accepts env group_id contributor g total count /\
    env' = contributed env group_id contributor g total count.
Proof.
  unfold contribute_outcome. split.
  - intros H.
    case_bool_decide as Hauth; [|done].
    case_bool_decide as Hmem; [|done].
    destruct (storage env !! group_data group_id) as [v|] eqn:Hg; [|done].
    destruct (as_group v) as [g|] eqn:Hv; [|done]. apply as_group_Some in Hv as ->.
    destruct (read_or as_status Pending _ _) as [status|] eqn:Hst; [|done].
    destruct (accepts_contributions status) eqn:Hacc; [|done].
    destruct (contribution_amount g <=? 0) eqn:Hamt; [done|].
    case_bool_decide as Hdup; [done|].
    destruct (read_or as_i128 0 _ _) as [total|] eqn:Ht; [|done].
    destruct (in_i128 _) eqn:Htr; [|done].
    destruct (read_or as_u32 0 _ _) as [count|] eqn:Hc; [|done].
    destruct (in_u32 _) eqn:Hcr; [|done].
    simplify_eq. exists g, total, count. split; [|done].
    constructor; try done.
    + by exists status.
    + by apply Z.leb_gt.
    + by apply eq_None_not_Some.
  - intros (g & total & count & [Hauth Hmem Hg (status & Hst & Hacc) Hamt Hfresh Ht Hc Htr Hcr] & ->).
    rewrite bool_decide_eq_true_2 by done.
    rewrite bool_decide_eq_true_2 by done.
    rewrite Hg. simpl. rewrite Hst, Hacc.
    apply Z.leb_gt in Hamt. rewrite Hamt.
    rewrite bool_decide_eq_false_2 by (rewrite Hfresh; by intros [? ?]).
    by rewrite Ht, Htr, Hc, Hcr.
Qed.

Lemma contribute_Ok group_id contributor env env' :
  contribute group_id contributor env = (Ok tt, env') <->
  exists g total count,
    accepts env group_id contributor g total count /\
    env' = contributed env group_id contributor g total count.
Proof.
  rewrite <- contribute_outcome_Ok. split.
  - intros H. by apply contribute_outcome_of in H.
  - intros H. pose proof (contribute_outcome_correct group_id contributor env) as Hc.
    by rewrite H in Hc.
Qed.

Lemma contribute_Err group_id contributor env e env' :
  contribute group_id contributor env = (Err e, env') <->
  contribute_outcome group_id contributor env = Err e /\ env' = env.
Proof.
  split.
  - intros H. by apply contribute_outcome_of in H.
  - intros [H ->]. pose proof (contribute_outcome_correct group_id contributor env) as Hc.
    by rewrite H in Hc.
Qed.

Lemma contribute_outcome_Err_cases group_id contributor env e :
  contribute_outcome group_id contributor env = Err e ->
  e = NotMember \/ e = GroupNotFound \/ e = InvalidState \/ e = InvalidAmount \/
  e = AlreadyContributed.
Proof.
  unfold contribute_outcome. intros H.
  repeat (case_bool_decide || case_match); simplify_eq; tauto.
Qed.

Lemma enter_storage call env : storage (enter call env) = storage env.
Proof. done. Qed.

Lemma enter_events call env : events (enter call env) = events env.
Proof. done. Qed.

(** The storage an accepted contribution leaves. *)
Lemma contributed_lookup_record env group_id contributor g total count :
  storage (contributed env group_id contributor g total count)
    !! contribution_individual group_id (current_cycle g) contributor
  = Some (VContribution (ContributionRecord.new contributor group_id (current_cycle g)
                           (contribution_amount g) (ledger_timestamp env))).
Proof.
  unfold contributed. cbn [storage].
  rewrite lookup_insert_ne by done. rewrite lookup_insert_ne by done.
  apply lookup_insert_eq.
Qed.

Lemma contributed_lookup_total env group_id contributor g total count :
  storage (contributed env group_id contributor g total count)
    !! contribution_cycle_total group_id (current_cycle g)
  = Some (VI128 (total + contribution_amount g)).
Proof.
  unfold contributed. cbn [storage].
  rewrite lookup_insert_ne by done. apply lookup_insert_eq.
Qed.

Lemma contributed_lookup_count env group_id contributor g total count :
  storage (contributed env group_id contributor g total count)
    !! contribution_cycle_count group_id (current_cycle g)
  = Some (VU32 (count + 1)).
Proof. unfold contributed. cbn [storage]. apply lookup_insert_eq. Qed.

Lemma contributed_lookup_other env group_id contributor g total count k :
  k <> contribution_individual group_id (current_cycle g) contributor ->
  k <> contribution_cycle_total group_id (current_cycle g) ->
  k <> contribution_cycle_count group_id (current_cycle g) ->
  storage (contributed env group_id contributor g total count) !! k = storage env !! k.
Proof.
  intros H1 H2 H3. unfold contributed. cbn [storage].
  rewrite lookup_insert_ne by done. rewrite lookup_insert_ne by done.
  by rewrite lookup_insert_ne.
Qed.

(** One invocation of [contribute] in a sequence: an accepted one leaves
    [contributed], every other one leaves the environment it entered. *)
Lemma invoke_contribute_cases call env r env' :
  invoke_contribute call env = (r, env') ->
  (r = Ok tt /\ exists g total count,
     accepts (enter call env) (call_group call) (call_contributor call) g total count /\
     env' = contributed (enter call env) (call_group call) (call_contributor call) g total count)
  \/ (is_ok r = false /\ env' = enter call env).
Proof.
  unfold invoke_contribute, invoke.
  destruct (contribute _ _ _) as [[[]|e|] env1] eqn:H; intros ?; simplify_eq.
  - left. split; [done|]. by apply contribute_Ok.
  - right. apply contribute_Err in H as [_ ->]. done.
  - right. done.
Qed.

(** C2. With the contributor authenticated, [contribute] fails NotMember
    when no member profile is stored for (group_id, contributor), whatever
    is stored for the group (the membership check precedes the load of the
    group); with a profile, it fails GroupNotFound when no group record is
    stored; with both, it fails InvalidState whenever the status, read with
    the default Pending (the data model's Forming) for an absent status
    record, does not accept contributions, and the default does not. Each
    failure returns in the environment the call was entered with. *)
Theorem contribute_checks_member_group_status group_id contributor env :
  contributor ∈ authorized env ->
  (storage env !! member_profile group_id contributor = None ->
   contribute group_id contributor env = (Err NotMember, env)) /\
  (is_Some (storage env !! member_profile group_id contributor) ->
   storage env !! group_data group_id = None ->
   contribute group_id contributor env = (Err GroupNotFound, env)) /\
  (forall g status,
   is_Some (storage env !! member_profile group_id contributor) ->
   storage env !! group_data group_id = Some (VGroup g) ->
   read_or as_status Pending (storage env) (group_status group_id) = Some status ->
   accepts_contributions status = false ->
   contribute group_id contributor env = (Err InvalidState, env)) /\
  (storage env !! group_status group_id = None ->
   read_or as_status Pending (storage env) (group_status group_id) = Some Forming /\
   accepts_contributions Forming = false).
Proof.
  intros Hauth. split; [|split; [|split]].
  - intros Hmem. apply contribute_Err. split; [|done].
    unfold contribute_outcome.
    rewrite bool_decide_eq_true_2 by done.
    rewrite bool_decide_eq_false_2; [done|]. rewrite Hmem. by intros [? ?].
  - intros Hmem Hg. apply contribute_Err. split; [|done].
    unfold contribute_outcome.
    rewrite !bool_decide_eq_true_2 by done. by rewrite Hg.
  - intros g status Hmem Hg Hst Hacc. apply contribute_Err. split; [|done].
    unfold contribute_outcome.
    rewrite !bool_decide_eq_true_2 by done. rewrite Hg. simpl. by rewrite Hst, Hacc.
  - unfold read_or. intros ->. done.
Qed.

(** C1. Every error [contribute] returns is one of NotMember,
    GroupNotFound, InvalidState, InvalidAmount, AlreadyContributed and is
    returned in the environment the call was entered with: storage and
    event log unchanged. After an accepted contribution, a second call for
    the same group and contributor fails AlreadyContributed and leaves the
    storage (record, cycle total, cycle count) as the first call left it.
    No invocation of [contribute] changes a ContributionRecord that is
    already stored, and none is accepted for a contributor whose record of
    the group's current cycle is stored, so one record at most is ever
    written per (group_id, cycle, contributor). *)
Theorem contribute_failure_leaves_storage group_id contributor env :
  (forall e env',
     contribute group_id contributor env = (Err e, env') ->
     env' = env /\
     (e = NotMember \/ e = GroupNotFound \/ e = InvalidState \/ e = InvalidAmount \/
      e = AlreadyContributed)) /\
  (forall env1 second,
     contribute group_id contributor env = (Ok tt, env1) ->
     call_group second = group_id ->
     call_contributor second = contributor ->
     contributor ∈ call_auth second ->
     invoke_contribute second env1 = (Err AlreadyContributed, enter second env1) /\
     storage (enter second env1) = storage env1) /\
  (forall call r env' g c a,
     invoke_contribute call env = (r, env') ->
     is_Some (storage env !! contribution_individual g c a) ->
     storage env' !! contribution_individual g c a
     = storage env !! contribution_individual g c a) /\
  (forall g env',
     storage env !! group_data group_id = Some (VGroup g) ->
     is_Some (storage env !! contribution_individual group_id (current_cycle g) contributor) ->
     contribute group_id contributor env <> (Ok tt, env')).
Proof.
  split; [|split; [|split]].
  - intros e env' H. apply contribute_Err in H as [H ->].
    split; [done|]. by apply contribute_outcome_Err_cases in H.
  - intros env1 second Hok Hg Hc Hauth. split; [|done].
    apply contribute_Ok in Hok as (g & total & count & Hacc & ->).
    destruct Hacc as [_ Hmem Hgr (status & Hst & Hsa) Hamt Hfresh _ _ _ _].
    unfold invoke_contribute, invoke. rewrite Hg, Hc.
    assert (contribute group_id contributor
              (enter second (contributed env group_id contributor g total count))
            = (Err AlreadyContributed,
               enter second (contributed env group_id contributor g total count))) as ->;
      [|done].
    apply contribute_Err. split; [|done].
    unfold contribute_outcome, read_or in *.
    cbn [storage authorized enter].
    rewrite bool_decide_eq_true_2 by done.
    rewrite !contributed_lookup_other by done.
    rewrite bool_decide_eq_true_2 by done.
    rewrite Hgr. cbn [as_group]. rewrite Hst, Hsa.
    apply Z.leb_gt in Hamt. rewrite Hamt.
    rewrite contributed_lookup_record.
    by rewrite bool_decide_eq_true_2.
  - intros call r env' g c a Hinv Hsome.
    apply invoke_contribute_cases in Hinv as [(_ & g' & total & count & Hacc & ->)|[_ ->]];
      [|done].
    destruct Hacc as [_ _ _ _ _ Hfresh _ _ _ _].
    rewrite enter_storage in Hfresh.
    rewrite contributed_lookup_other; [done| |done|done].
    intros Heq. rewrite Heq, Hfresh in Hsome. by destruct Hsome.
  - intros g env' Hg Hsome Hok.
    apply contribute_Ok in Hok as (g' & total & count & Hacc & _).
    destruct Hacc as [_ _ Hg' _ _ Hfresh _ _ _ _].
    rewrite Hg in Hg'. simplify_eq. rewrite Hfresh in Hsome. by destruct Hsome.
Qed.

(** C10. An accepted contribution writes three keys only: the
    ContributionRecord of (group_id, current_cycle, contributor), the cycle
    total and the cycle count of (group_id, current_cycle). Every other key
    keeps its value; in particular every Group record (with its
    current_cycle, contribution_amount, member_count, started_at), every
    group status and every member profile. *)
Theorem contribute_writes_three_keys group_id contributor env env' :
  contribute group_id contributor env = (Ok tt, env') ->
  exists g,
    storage env !! group_data group_id = Some (VGroup g) /\
    (forall k,
       k <> contribution_individual group_id (current_cycle g) contributor ->
       k <> contribution_cycle_total group_id (current_cycle g) ->
       k <> contribution_cycle_count group_id (current_cycle g) ->
       storage env' !! k = storage env !! k) /\
    (forall id, storage env' !! group_data id = storage env !! group_data id) /\
    (forall id, storage env' !! group_status id = storage env !! group_status id) /\
    (forall id a, storage env' !! member_profile id a = storage env !! member_profile id a) /\
    storage env' !! group_data group_id = Some (VGroup g) /\
    is_Some (storage env' !! contribution_individual group_id (current_cycle g) contributor) /\
    is_Some (storage env' !! contribution_cycle_total group_id (current_cycle g)) /\
    is_Some (storage env' !! contribution_cycle_count group_id (current_cycle g)).
Proof.
  intros H. apply contribute_Ok in H as (g & total & count & Hacc & ->).
  destruct Hacc as [_ _ Hg _ _ _ _ _ _ _].
  exists g.
  split; [done|]. split; [|split; [|split; [|split; [|split; [|split; [|split]]]]]].
  - intros k Hk1 Hk2 Hk3. by apply contributed_lookup_other.
  - intros id. by apply contributed_lookup_other.
  - intros id. by apply contributed_lookup_other.
  - intros id a. by apply contributed_lookup_other.
  - by rewrite contributed_lookup_other.
  - by rewrite contributed_lookup_record.
  - by rewrite contributed_lookup_total.
  - by rewrite contributed_lookup_count.
Qed.

(** ** Weighing the store *)

Section Weigh.

Variable w : StorageKey -> StorageVal -> Z.

Lemma weigh_empty : weigh w ∅ = 0.
Proof. apply map_fold_empty. Qed.

Lemma weigh_insert_fresh s k v :
  s !! k = None -> weigh w (<[k := v]> s) = weigh w s + w k v.
Proof.
  intros Hk. unfold weigh.
  rewrite map_fold_insert_L; [done| |done].
  intros. lia.
Qed.

Lemma weigh_insert s k v :
  weigh w (<[k := v]> s)
  = weigh w s - match s !! k with Some old => w k old | None => 0 end + w k v.
Proof.
  destruct (s !! k) as [old|] eqn:Hk.
  - rewrite <- (insert_delete_eq s k v).
    rewrite <- (insert_delete_id s k old) at 2 by done.
    rewrite !weigh_insert_fresh by apply lookup_delete_eq. lia.
  - rewrite weigh_insert_fresh by done. lia.
Qed.

Lemma weigh_zero s :
  (forall k v, s !! k = Some v -> w k v = 0) -> weigh w s = 0.
Proof.
  unfold weigh.
  apply (map_fold_weak_ind
           (fun r m => (forall k v, m !! k = Some v -> w k v = 0) -> r = 0)).
  - done.
  - intros i x m r Hi IH Hall.
    rewrite (Hall i x) by apply lookup_insert_eq.
    rewrite IH; [done|]. intros k v Hkv. apply Hall.
    rewrite lookup_insert_ne; [done|]. intros ->. congruence.
Qed.

End Weigh.

(** An accepted contribution adds one record, of the group's amount, to
    the records of its group and cycle, and none to those of any other. *)
Lemma weigh_contributed w env group_id contributor g total count :
  (forall id c v, w (contribution_cycle_total id c) v = 0) ->
  (forall id c v, w (contribution_cycle_count id c) v = 0) ->
  storage env !! contribution_individual group_id (current_cycle g) contributor = None ->
  weigh w (storage (contributed env group_id contributor g total count))
  = weigh w (storage env)
    + w (contribution_individual group_id (current_cycle g) contributor)
        (VContribution (ContributionRecord.new contributor group_id (current_cycle g)
                          (contribution_amount g) (ledger_timestamp env))).
Proof.
  intros Ht Hc Hfresh. unfold contributed. cbn [storage].
  rewrite weigh_insert, Hc.
  destruct (_ !! contribution_cycle_count _ _); rewrite ?Hc;
    (rewrite weigh_insert, Ht;
     destruct (_ !! contribution_cycle_total _ _); rewrite ?Ht;
     rewrite weigh_insert_fresh by done; lia).
Qed.

Lemma records_total_contributed env group_id contributor g total count id cycle :
  storage env !! contribution_individual group_id (current_cycle g) contributor = None ->
  records_total (storage (contributed env group_id contributor g total count)) id cycle
  = records_total (storage env) id cycle
    + (if bool_decide (group_id = id /\ current_cycle g = cycle)
       then contribution_amount g else 0).
Proof. intros Hfresh. unfold records_total. by rewrite weigh_contributed. Qed.

Lemma records_count_contributed env group_id contributor g total count id cycle :
  storage env !! contribution_individual group_id (current_cycle g) contributor = None ->
  records_count (storage (contributed env group_id contributor g total count)) id cycle
  = records_count (storage env) id cycle
    + (if bool_decide (group_id = id /\ current_cycle g = cycle) then 1 else 0).
Proof. intros Hfresh. unfold records_count. by rewrite weigh_contributed. Qed.

Lemma records_none s group_id cycle :
  (forall a, s !! contribution_individual group_id cycle a = None) ->
  records_total s group_id cycle = 0 /\ records_count s group_id cycle = 0.
Proof.
  intros Hnone. split; apply weigh_zero; intros k v Hkv;
    destruct k as [| | |id c a| |]; try done; destruct v; try done; simpl;
    case_bool_decide as Heq; try done; destruct Heq as [-> ->];
    by rewrite Hnone in Hkv.
Qed.

(** ** Sequences of contributions *)

Lemma run_cons call calls env :
  run (call :: calls) env
  = let '(r, env1) := invoke_contribute call env in
    let '(rs, env2) := run calls env1 in (r :: rs, env2).
Proof. done. Qed.

(** One invocation and the tally of a group: an accepted contribution to
    the group adds one, every other invocation leaves it. *)
Lemma invoke_contribute_tally call env r env' group_id g n :
  invoke_contribute call env = (r, env') ->
  tally (storage env) group_id g n ->
  tally (storage env') group_id g
    (n + if bool_decide (call_group call = group_id) && is_ok r then 1 else 0).
Proof.
  intros Hinv [Hg Ht Hc Hrt Hrc].
  apply invoke_contribute_cases in Hinv
    as [(-> & g' & total & count & Hacc & ->)|[-> ->]].
  - destruct Hacc as [_ _ Hg' _ _ Hfresh Ht' Hc' _ _].
    rewrite enter_storage in *. cbn [is_ok]. rewrite andb_true_r.
    case_bool_decide as Hid.
    + rewrite Hid in *. rewrite Hg in Hg'. simplify_eq.
      constructor.
      * by rewrite contributed_lookup_other.
      * unfold read_or. rewrite contributed_lookup_total. cbn [as_i128].
        f_equal. lia.
      * unfold read_or. by rewrite contributed_lookup_count.
      * rewrite records_total_contributed by done.
        rewrite bool_decide_eq_true_2 by done. cbn [enter storage] in *. lia.
      * rewrite records_count_contributed by done.
        rewrite bool_decide_eq_true_2 by done. cbn [enter storage] in *. lia.
    + rewrite Z.add_0_r.
      constructor.
      * by rewrite contributed_lookup_other.
      * unfold read_or in *. rewrite contributed_lookup_other; [done|done| |done].
        intros ?; simplify_eq.
      * unfold read_or in *. rewrite contributed_lookup_other; [done|done|done|].
        intros ?; simplify_eq.
      * rewrite records_total_contributed by done.
        rewrite bool_decide_eq_false_2 by (intros [? ?]; done).
        cbn [enter storage]. lia.
      * rewrite records_count_contributed by done.
        rewrite bool_decide_eq_false_2 by (intros [? ?]; done).
        cbn [enter storage]. lia.
  - rewrite andb_false_r, Z.add_0_r. done.
Qed.

Lemma run_tally calls : forall env results env' group_id g n,
  run calls env = (results, env') ->
  tally (storage env) group_id g n ->
  tally (storage env') group_id g (n + accepted group_id calls results).
Proof.
  induction calls as [|call calls IH]; intros env results env' group_id g n Hrun Ht.
  - simpl in Hrun. simplify_eq. simpl. by rewrite Z.add_0_r.
  - rewrite run_cons in Hrun.
    destruct (invoke_contribute call env) as [r env1] eqn:Hinv.
    destruct (run calls env1) as [rs env2] eqn:Hrest. simplify_eq.
    pose proof (invoke_contribute_tally _ _ _ _ _ _ _ Hinv Ht) as Ht1.
    pose proof (IH _ _ _ _ _ _ Hrest Ht1) as Ht2.
    cbn [accepted]. by rewrite Z.add_assoc.
Qed.

Lemma accepted_nonneg group_id calls : forall results, 0 <= accepted group_id calls results.
Proof.
  induction calls as [|c calls IH]; intros [|r rs]; simpl; try lia.
  specialize (IH rs). destruct (_ && _); lia.
Qed.

Lemma cycle_total_read s group_id cycle total :
  read_or as_i128 0 s (contribution_cycle_total group_id cycle) = Some total ->
  cycle_total s group_id cycle = total.
Proof. unfold cycle_total. by intros ->. Qed.

Lemma cycle_count_read s group_id cycle count :
  read_or as_u32 0 s (contribution_cycle_count group_id cycle) = Some count ->
  cycle_count s group_id cycle = count.
Proof. unfold cycle_count. by intros ->. Qed.

(** One invocation keeps the stored total of every cycle of every group
    equal to the sum of its records, and the stored count to their number. *)
Lemma invoke_contribute_aggregates call env r env' id cycle :
  invoke_contribute call env = (r, env') ->
  cycle_total (storage env) id cycle = records_total (storage env) id cycle ->
  cycle_count (storage env) id cycle = records_count (storage env) id cycle ->
  cycle_total (storage env') id cycle = records_total (storage env') id cycle /\
  cycle_count (storage env') id cycle = records_count (storage env') id cycle.
Proof.
  intros Hinv Ht Hc.
  apply invoke_contribute_cases in Hinv
    as [(-> & g & total & count & Hacc & ->)|[_ ->]]; [|done].
  destruct Hacc as [_ _ _ _ _ Hfresh Ht' Hc' _ _].
  rewrite enter_storage in *.
  rewrite records_total_contributed, records_count_contributed by done.
  cbn [enter storage].
  case_bool_decide as Heq.
  - destruct Heq as [<- <-].
    apply cycle_total_read in Ht'. apply cycle_count_read in Hc'.
    unfold cycle_total, cycle_count, read_or in *.
    rewrite contributed_lookup_total, contributed_lookup_count.
    cbn [as_i128 as_u32 default from_option id]. cbn [enter storage] in *. lia.
  - assert (contribution_cycle_total id cycle
            <> contribution_cycle_total (call_group call) (current_cycle g))
      by (intros ?; simplify_eq; by apply Heq).
    assert (contribution_cycle_count id cycle
            <> contribution_cycle_count (call_group call) (current_cycle g))
      by (intros ?; simplify_eq; by apply Heq).
    unfold cycle_total, cycle_count, read_or in *.
    rewrite !contributed_lookup_other by done. cbn [enter storage]. lia.
Qed.

(** C4. With the group stored, an accepted contribution reads the cycle
    total and the cycle count of the current cycle with 0 for an absent
    key, and stores the total plus the group's contribution amount, the
    count plus one, and a record of that amount. Starting a cycle with no
    aggregate and no record, after any sequence of invocations of
    [contribute] of which N to this group are accepted, the stored total is
    N * A, the stored count N, and they are the sum and the number of the
    cycle's records. One invocation keeps the total of any cycle equal to
    the sum of its records. *)
Theorem cycle_aggregates_follow_accepted env group_id g :
  storage env !! group_data group_id = Some (VGroup g) ->
  let cycle := current_cycle g in
  let A := contribution_amount g in
  (forall contributor env',
     contribute group_id contributor env = (Ok tt, env') ->
     exists total count,
       read_or as_i128 0 (storage env) (contribution_cycle_total group_id cycle) = Some total /\
       read_or as_u32 0 (storage env) (contribution_cycle_count group_id cycle) = Some count /\
       storage env' !! contribution_cycle_total group_id cycle = Some (VI128 (total + A)) /\
       storage env' !! contribution_cycle_count group_id cycle = Some (VU32 (count + 1)) /\
       storage env' !! contribution_individual group_id cycle contributor
       = Some (VContribution (ContributionRecord.new contributor group_id cycle A
                                (ledger_timestamp env))) /\
       records_total (storage env') group_id cycle
       = records_total (storage env) group_id cycle + A /\
       records_count (storage env') group_id cycle
       = records_count (storage env) group_id cycle + 1) /\
  (storage env !! contribution_cycle_total group_id cycle = None ->
   storage env !! contribution_cycle_count group_id cycle = None ->
   (forall a, storage env !! contribution_individual group_id cycle a = None) ->
   forall calls results env',
     run calls env = (results, env') ->
     let N := accepted group_id calls results in
     cycle_total (storage env') group_id cycle = N * A /\
     cycle_count (storage env') group_id cycle = N /\
     records_total (storage env') group_id cycle = cycle_total (storage env') group_id cycle /\
     records_count (storage env') group_id cycle = N) /\
  (forall call r env' id c,
     invoke_contribute call env = (r, env') ->
     cycle_total (storage env) id c = records_total (storage env) id c ->
     cycle_count (storage env) id c = records_count (storage env) id c ->
     cycle_total (storage env') id c = records_total (storage env') id c /\
     cycle_count (storage env') id c = records_count (storage env') id c).
Proof.
  intros Hg cycle A. subst cycle A. split; [|split].
  - intros contributor env' H.
    apply contribute_Ok in H as (g' & total & count & Hacc & ->).
    destruct Hacc as [_ _ Hg' _ _ Hfresh Ht Hc _ _].
    rewrite Hg in Hg'. simplify_eq. exists total, count.
    rewrite contributed_lookup_total, contributed_lookup_count,
      contributed_lookup_record, records_total_contributed,
      records_count_contributed by done.
    rewrite !bool_decide_eq_true_2 by done. done.
  - intros Htot Hcnt Hrec calls results env' Hrun N.
    destruct (records_none _ _ _ Hrec) as [Hrt Hrc].
    assert (tally (storage env) group_id g 0) as Ht0.
    { constructor; unfold read_or; rewrite ?Htot, ?Hcnt; done. }
    pose proof (run_tally _ _ _ _ _ _ _ Hrun Ht0) as [_ Ht Hc Hrt' Hrc'].
    subst N. rewrite Z.add_0_l in *.
    apply cycle_total_read in Ht. apply cycle_count_read in Hc.
    rewrite Ht, Hc. done.
  - intros call r env' id c. apply invoke_contribute_aggregates.
Qed.

(** ** Cycle completion *)

Lemma completions_app group_id cycle l1 l2 :
  completions group_id cycle (l1 ++ l2)
  = (completions group_id cycle l1 + completions group_id cycle l2)%nat.
Proof. apply count_occ_app. Qed.

(** The events of an accepted contribution hold one CycleComplete of the
    group's current cycle when the new count is the member count, and none
    otherwise. *)
Lemma completions_contributed env group_id contributor g total count id cycle :
  completions id cycle (events (contributed env group_id contributor g total count))
  = (completions id cycle (events env)
     + if ((count + 1 =? member_count g)
           && bool_decide (group_id = id /\ current_cycle g = cycle))%Z
       then 1 else 0)%nat.
Proof.
  unfold contributed. cbn [events]. rewrite completions_app. f_equal.
  unfold completions.
  rewrite count_occ_cons_neq by done.
  destruct (count + 1 =? member_count g); cbn [andb]; [|done].
  case_bool_decide as Heq.
  - destruct Heq as [-> ->]. by rewrite count_occ_cons_eq.
  - rewrite count_occ_cons_neq; [done|]. intros ?; simplify_eq. by apply Heq.
Qed.

(** A cycle that cannot complete any more stays so. *)
Lemma invoke_contribute_cannot_complete call env r env' id cycle :
  invoke_contribute call env = (r, env') ->
  ~ can_complete (storage env) id cycle ->
  ~ can_complete (storage env') id cycle.
Proof.
  intros Hinv Hdead (g2 & n2 & Hg2 & Hcy & Hn2 & Hlt).
  apply invoke_contribute_cases in Hinv
    as [(-> & g & total & count & Hacc & ->)|[_ ->]].
  - destruct Hacc as [_ _ Hg _ _ _ _ Hc _ _].
    rewrite enter_storage in *. apply Hdead.
    rewrite contributed_lookup_other in Hg2 by done.
    rewrite enter_storage in Hg2.
    unfold read_or in Hn2.
    destruct (decide (call_group call = id /\ current_cycle g = cycle)) as [[Hid Hcyc]|Hne].
    + rewrite <- Hid, <- Hcyc in Hn2. rewrite contributed_lookup_count in Hn2.
      cbn [as_u32] in Hn2. rewrite Hid in Hg. rewrite Hg in Hg2. simplify_eq.
      exists g2, count. repeat split; [done|done|lia].
    + rewrite contributed_lookup_other in Hn2;
        [|done|done|intros ?; simplify_eq; by apply Hne].
      rewrite enter_storage in Hn2.
      by exists g2, n2.
  - apply Hdead. by exists g2, n2.
Qed.

(** One invocation emits at most one CycleComplete of a cycle, and one
    only for a cycle that could complete and no longer can. *)
Lemma invoke_contribute_completions call env r env' id cycle :
  invoke_contribute call env = (r, env') ->
  completions id cycle (events env') = completions id cycle (events env) \/
  (completions id cycle (events env') = S (completions id cycle (events env)) /\
   can_complete (storage env) id cycle /\
   ~ can_complete (storage env') id cycle).
Proof.
  intros Hinv.
  apply invoke_contribute_cases in Hinv
    as [(-> & g & total & count & Hacc & ->)|[_ ->]]; [|by left].
  destruct Hacc as [_ _ Hg _ _ _ _ Hc _ _]. rewrite enter_storage in *.
  rewrite completions_contributed. cbn [enter events].
  destruct (count + 1 =? member_count g) eqn:Hfull; cbn [andb]; [|left; lia].
  case_bool_decide as Heq; [|left; lia]. destruct Heq as [<- <-].
  apply Z.eqb_eq in Hfull. right. split; [lia|]. split.
  - exists g, count. repeat split; [done|done|lia].
  - intros (g2 & n2 & Hg2 & _ & Hn2 & Hlt).
    rewrite contributed_lookup_other in Hg2 by done.
    cbn [enter storage] in Hg2. rewrite Hg in Hg2. simplify_eq.
    unfold read_or in Hn2. rewrite contributed_lookup_count in Hn2.
    cbn [as_u32] in Hn2. simplify_eq. lia.
Qed.

Lemma run_cannot_complete calls : forall env results env' id cycle,
  run calls env = (results, env') ->
  ~ can_complete (storage env) id cycle ->
  completions id cycle (events env') = completions id cycle (events env).
Proof.
  induction calls as [|call calls IH]; intros env results env' id cycle Hrun Hdead.
  - simpl in Hrun. by simplify_eq.
  - rewrite run_cons in Hrun.
    destruct (invoke_contribute call env) as [r env1] eqn:Hinv.
    destruct (run calls env1) as [rs env2] eqn:Hrest. simplify_eq.
    pose proof (invoke_contribute_cannot_complete _ _ _ _ _ _ Hinv Hdead) as Hdead1.
    rewrite (IH _ _ _ _ _ Hrest Hdead1).
    destruct (invoke_contribute_completions _ _ _ _ id cycle Hinv) as [->|(_ & Hcan & _)];
      [done|]. by destruct Hdead.
Qed.

Lemma run_completions_at_most_once calls : forall env results env' id cycle,
  run calls env = (results, env') ->
  (completions id cycle (events env) <= completions id cycle (events env')
   <= S (completions id cycle (events env)))%nat.
Proof.
  induction calls as [|call calls IH]; intros env results env' id cycle Hrun.
  - simpl in Hrun. simplify_eq. lia.
  - rewrite run_cons in Hrun.
    destruct (invoke_contribute call env) as [r env1] eqn:Hinv.
    destruct (run calls env1) as [rs env2] eqn:Hrest. simplify_eq.
    destruct (invoke_contribute_completions _ _ _ _ id cycle Hinv)
      as [Heq|(Heq & _ & Hdead)].
    + rewrite <- Heq. by eapply IH.
    + rewrite (run_cannot_complete _ _ _ _ _ _ Hrest Hdead). lia.
Qed.

(** From a tally of [n], the CycleComplete of the group's current cycle is
    emitted during a sequence exactly when the count passes from below the
    member count to it. *)
Lemma invoke_contribute_completes_tally call env r env' group_id g n :
  invoke_contribute call env = (r, env') ->
  tally (storage env) group_id g n ->
  completions group_id (current_cycle g) (events env')
  = (completions group_id (current_cycle g) (events env)
     + if (bool_decide (call_group call = group_id) && is_ok r
           && (n + 1 =? member_count g))%Z
       then 1 else 0)%nat.
Proof.
  intros Hinv [Hg _ Hn _ _].
  apply invoke_contribute_cases in Hinv
    as [(-> & g' & total & count & Hacc & ->)|[-> ->]].
  - destruct Hacc as [_ _ Hg' _ _ _ _ Hc _ _]. rewrite enter_storage in *.
    rewrite completions_contributed. cbn [enter events is_ok]. rewrite andb_true_r.
    destruct (decide (call_group call = group_id)) as [Hid|Hid].
    + rewrite Hid in *. rewrite Hg in Hg'. simplify_eq.
      rewrite !bool_decide_eq_true_2 by done. by rewrite andb_true_r.
    + rewrite (bool_decide_eq_false_2 (_ /\ _)) by (intros [? ?]; done).
      rewrite (bool_decide_eq_false_2 (call_group call = group_id)) by done.
      by rewrite andb_false_r.
  - rewrite andb_false_r. cbn [andb enter events]. lia.
Qed.

Lemma run_completes_tally calls : forall env results env' group_id g n,
  run calls env = (results, env') ->
  tally (storage env) group_id g n ->
  completions group_id (current_cycle g) (events env')
  = (completions group_id (current_cycle g) (events env)
     + if bool_decide (n < member_count g <= n + accepted group_id calls results)%Z
       then 1 else 0)%nat.
Proof.
  induction calls as [|call calls IH]; intros env results env' group_id g n Hrun Ht.
  - simpl in Hrun. simplify_eq. simpl.
    rewrite bool_decide_eq_false_2 by lia. lia.
  - rewrite run_cons in Hrun.
    destruct (invoke_contribute call env) as [r env1] eqn:Hinv.
    destruct (run calls env1) as [rs env2] eqn:Hrest. simplify_eq.
    pose proof (invoke_contribute_tally _ _ _ _ _ _ _ Hinv Ht) as Ht1.
    rewrite (IH _ _ _ _ _ _ Hrest Ht1).
    rewrite (invoke_contribute_completes_tally _ _ _ _ _ _ _ Hinv Ht).
    cbn [accepted]. pose proof (accepted_nonneg group_id calls rs).
    destruct (bool_decide (call_group call = group_id) && is_ok r); cbn [andb].
    + destruct (n + 1 =? member_count g) eqn:Hfull.
      * apply Z.eqb_eq in Hfull.
        rewrite bool_decide_eq_false_2 by lia.
        rewrite bool_decide_eq_true_2 by lia. lia.
      * apply Z.eqb_neq in Hfull.
        repeat case_bool_decide; lia.
    + rewrite !Z.add_0_r. repeat case_bool_decide; lia.
Qed.

(** C3. An accepted contribution appends to the event log its
    ContributionMade and then CycleComplete(group_id, cycle) exactly when
    the count it stored equals the group's member count; the Group record,
    and with it current_cycle, is as before, and nothing but the three keys
    of the contribution is written. A rejected call emits nothing. Over any
    sequence of invocations of [contribute], CycleComplete of a given group
    and cycle is emitted at most once; starting a cycle with no aggregate
    and no record, it is emitted exactly once if the accepted contributions
    to the group reach the member count, and not at all otherwise. *)
Theorem cycle_complete_fires_once_at_member_count :
  (forall group_id contributor env env',
     contribute group_id contributor env = (Ok tt, env') ->
     exists g made,
       storage env !! group_data group_id = Some (VGroup g) /\
       storage env' !! group_data group_id = Some (VGroup g) /\
       events env' =
         events env ++ made ::
           (if cycle_count (storage env') group_id (current_cycle g) =? member_count g
            then [CycleComplete group_id (current_cycle g)] else []) /\
       made = ContributionMade group_id contributor (contribution_amount g)
                (current_cycle g) (cycle_total (storage env') group_id (current_cycle g))
                (ledger_timestamp env) /\
       (forall k,
          k <> contribution_individual group_id (current_cycle g) contributor ->
          k <> contribution_cycle_total group_id (current_cycle g) ->
          k <> contribution_cycle_count group_id (current_cycle g) ->
          storage env' !! k = storage env !! k)) /\
  (forall group_id contributor env e env',
     contribute group_id contributor env = (Err e, env') ->
     events env' = events env) /\
  (forall calls env results env' group_id cycle,
     run calls env = (results, env') ->
     (completions group_id cycle (events env)
      <= completions group_id cycle (events env')
      <= S (completions group_id cycle (events env)))%nat) /\
  (forall calls env results env' group_id g,
     storage env !! group_data group_id = Some (VGroup g) ->
     storage env !! contribution_cycle_total group_id (current_cycle g) = None ->
     storage env !! contribution_cycle_count group_id (current_cycle g) = None ->
     (forall a, storage env !! contribution_individual group_id (current_cycle g) a = None) ->
     run calls env = (results, env') ->
     completions group_id (current_cycle g) (events env')
     = (completions group_id (current_cycle g) (events env)
        + if bool_decide (0 < member_count g <= accepted group_id calls results)%Z
          then 1 else 0)%nat).
Proof.
  split; [|split; [|split]].
  - intros group_id contributor env env' H.
    apply contribute_Ok in H as (g & total & count & Hacc & ->).
    destruct Hacc as [_ _ Hg _ _ _ _ _ _ _].
    exists g. eexists. split; [done|]. split; [by rewrite contributed_lookup_other|].
    unfold cycle_count, cycle_total, read_or.
    rewrite contributed_lookup_count, contributed_lookup_total.
    cbn [as_u32 as_i128 default from_option id].
    split; [done|]. split; [done|].
    intros k Hk1 Hk2 Hk3. by apply contributed_lookup_other.
  - intros group_id contributor env e env' H. by apply contribute_Err in H as [_ ->].
  - intros calls env results env' group_id cycle. apply run_completions_at_most_once.
  - intros calls env results env' group_id g Hg Htot Hcnt Hrec Hrun.
    destruct (records_none _ _ _ Hrec) as [Hrt Hrc].
    assert (tally (storage env) group_id g 0) as Ht0.
    { constructor; unfold read_or; rewrite ?Htot, ?Hcnt; done. }
    rewrite (run_completes_tally _ _ _ _ _ _ _ Hrun Ht0).
    by rewrite Z.add_0_l.
Qed.

(** ** is_cycle_deadline_passed *)

(** C5. [is_cycle_deadline_passed] is false for a group whose started_at
    is unset; for a started group it is true exactly when current_time >
    started_at + cycle_duration * (current_cycle + 1), so it is false at the
    deadline instant itself. *)
Theorem is_cycle_deadline_passed_spec (group : Group) (current_time : Z) :
  (started_at group = None -> is_cycle_deadline_passed group current_time = false) /\
  (forall started,
     started_at group = Some started ->
     let deadline := started + cycle_duration group * (current_cycle group + 1) in
     (is_cycle_deadline_passed group current_time = true <-> current_time > deadline) /\
     (current_time = deadline -> is_cycle_deadline_passed group current_time = false)).
Proof.
  unfold is_cycle_deadline_passed. split.
  - by intros ->.
  - intros started Hs. rewrite Hs. cbn zeta. split.
    + rewrite Z.gtb_ltb, Z.ltb_lt. lia.
    + intros ->. rewrite Z.gtb_ltb. apply Z.ltb_irrefl.
Qed.

(** C6, as stated, fails: in its second cycle (current_cycle = 1) a group
    started at 1000 with cycle_duration 100 has its deadline at 1200, and
    the deadline has not passed at started_at + cycle_duration + 1 = 1101. *)
Lemma first_cycle_deadline_counterexample :
  let group := mkGroup 7 1%N "savers" 100 100 3 3 1 (Some 1000) in
  started_at group = Some 1000 /\
  ~ (is_cycle_deadline_passed group (1000 + cycle_duration group) = false /\
     is_cycle_deadline_passed group (1000 + cycle_duration group + 1) = true).
Proof. split; [reflexivity|]. vm_compute. intros [_ H]. discriminate H. Qed.

(** C6, amended. For a started group (cycle_duration and current_cycle
    being unsigned), the deadline has not passed at started_at +
    cycle_duration; in the first cycle (current_cycle = 0) it has passed one
    second later. *)
Theorem first_cycle_deadline_boundary (group : Group) (started : Z) :
  started_at group = Some started ->
  0 <= cycle_duration group ->
  0 <= current_cycle group ->
  is_cycle_deadline_passed group (started + cycle_duration group) = false /\
  (current_cycle group = 0 ->
   is_cycle_deadline_passed group (started + cycle_duration group + 1) = true).
Proof.
  intros Hs Hd Hc. unfold is_cycle_deadline_passed. rewrite Hs. cbn zeta.
  rewrite !Z.gtb_ltb. split.
  - apply Z.ltb_ge. nia.
  - intros ->. apply Z.ltb_lt. lia.
Qed.

(** ** is_group_active *)

(** C8. [is_group_active] returns the error GroupNotFound when no group
    record is stored; with a group record it returns a boolean, never an
    error, and the boolean is true exactly when the status is Active and
    1 <= member_count <= max_members. It leaves the environment as it is. *)
Theorem is_group_active_spec (group_id : Z) (env : Env) :
  (storage env !! group_data group_id = None ->
   is_group_active group_id env = (Err GroupNotFound, env)) /\
  (forall g status,
     storage env !! group_data group_id = Some (VGroup g) ->
     read_or as_status Forming (storage env) (group_status group_id) = Some status ->
     exists b,
       is_group_active group_id env = (Ok b, env) /\
       (b = true <->
        status = Active /\ 1 <= member_count g <= max_members g)).
Proof.
  unfold is_group_active, read_or. split.
  - intros Hg. contract_step. by rewrite Hg.
  - intros g status Hg Hst. contract_step. rewrite Hg. cbn [as_group]. contract_step.
    destruct (storage env !! group_status group_id) as [v|];
      [rewrite Hst|simplify_eq];
      (eexists; split; [done|];
       rewrite !andb_true_iff, bool_decide_eq_true, !Z.leb_le; tauto).
Qed.

(** ** create_group *)




(** ** format_group_id *)

Lemma digit_byte_value d :
  0 <= d < 10 -> Z.of_nat (nat_of_ascii (digit_byte d)) - 48 = d.
Proof.
  intros Hd. unfold digit_byte. rewrite nat_ascii_embedding by lia. lia.
Qed.

Lemma digit_byte_is_digit d : 0 <= d < 10 -> is_digit (digit_byte d) = true.
Proof.
  intros Hd. unfold is_digit, digit_byte. rewrite nat_ascii_embedding by lia.
  apply andb_true_iff. split; apply Nat.leb_le; lia.
Qed.

Lemma decimal_value_from (ds : list ascii) : forall a,
  fold_left (fun acc c => 10 * acc + (Z.of_nat (nat_of_ascii c) - 48)) ds a
  = a * 10 ^ Z.of_nat (length ds) + decimal_value ds.
Proof.
  unfold decimal_value. induction ds as [|c ds IH]; intros a.
  - simpl. lia.
  - cbn [fold_left length]. rewrite IH, (IH (10 * 0 + _)).
    rewrite Nat2Z.inj_succ, Z.pow_succ_r by lia. lia.
Qed.

Lemma decimal_value_cons d ds :
  0 <= d < 10 ->
  decimal_value (digit_byte d :: ds) = d * 10 ^ Z.of_nat (length ds) + decimal_value ds.
Proof.
  intros Hd. unfold decimal_value at 1. cbn [fold_left].
  rewrite decimal_value_from, digit_byte_value by done. lia.
Qed.

Lemma push_digits_zero fuel acc : push_digits fuel 0 acc = acc.
Proof. by destruct fuel. Qed.

Lemma push_digits_value fuel : forall n acc,
  0 <= n < 10 ^ Z.of_nat fuel ->
  decimal_value (push_digits fuel n acc)
  = n * 10 ^ Z.of_nat (length acc) + decimal_value acc.
Proof.
  induction fuel as [|fuel IH]; intros n acc Hn.
  - simpl in *. assert (n = 0) as -> by lia. lia.
  - cbn [push_digits]. destruct (n =? 0) eqn:Hz.
    + apply Z.eqb_eq in Hz as ->. lia.
    + rewrite Nat2Z.inj_succ, Z.pow_succ_r in Hn by lia.
      pose proof (Z.mod_pos_bound n 10 ltac:(lia)).
      pose proof (Z.div_mod n 10 ltac:(lia)).
      rewrite IH by (split; [apply Z.div_pos; lia|apply Z.div_lt_upper_bound; lia]).
      rewrite decimal_value_cons by done.
      cbn [length]. rewrite Nat2Z.inj_succ, Z.pow_succ_r by lia. nia.
Qed.

Lemma push_digits_digits fuel : forall n acc,
  0 <= n -> forallb is_digit acc = true ->
  forallb is_digit (push_digits fuel n acc) = true.
Proof.
  induction fuel as [|fuel IH]; intros n acc Hn Hacc; [done|].
  cbn [push_digits]. destruct (n =? 0); [done|].
  apply IH; [apply Z.div_pos; lia|].
  cbn [forallb]. rewrite Hacc, digit_byte_is_digit; [done|].
  apply Z.mod_pos_bound. lia.
Qed.

Lemma digit_byte_nonzero d : 0 < d < 10 -> digit_byte d <> digit_byte 0.
Proof.
  intros Hd Heq.
  pose proof (digit_byte_value d ltac:(lia)) as H1.
  pose proof (digit_byte_value 0 ltac:(lia)) as H2.
  rewrite Heq in H1. lia.
Qed.

Lemma push_digits_leading fuel : forall n acc,
  0 < n < 10 ^ Z.of_nat fuel ->
  exists c rest, push_digits fuel n acc = c :: rest /\ c <> digit_byte 0.
Proof.
  induction fuel as [|fuel IH]; intros n acc Hn.
  - simpl in Hn. lia.
  - cbn [push_digits]. destruct (n =? 0) eqn:Hz; [apply Z.eqb_eq in Hz; lia|].
    rewrite Nat2Z.inj_succ, Z.pow_succ_r in Hn by lia.
    destruct (decide (n / 10 = 0)) as [Hq|Hq].
    + rewrite Hq, push_digits_zero. eexists. eexists. split; [done|].
      apply digit_byte_nonzero.
      apply Z.div_small_iff in Hq; [|lia].
      rewrite Z.mod_small by lia. lia.
    + apply IH. pose proof (Z.div_pos n 10 ltac:(lia) ltac:(lia)).
      split; [lia|apply Z.div_lt_upper_bound; lia].
Qed.

Lemma u64_digits_decimal n : 0 <= n <= u64_MAX -> is_decimal_of (u64_digits n) n.
Proof.
  intros Hn. unfold u64_digits. destruct (n =? 0) eqn:Hz.
  - apply Z.eqb_eq in Hz as ->. by vm_compute.
  - apply Z.eqb_neq in Hz.
    assert (0 < n < 10 ^ Z.of_nat 20) as Hb by (unfold u64_MAX in Hn; lia).
    split; [|split].
    + by apply push_digits_digits; [lia|].
    + rewrite push_digits_value by lia.
      change (decimal_value []) with 0. change (Z.of_nat (length (@nil ascii))) with 0. lia.
    + destruct (push_digits_leading 20 n [] Hb) as (c & rest & -> & Hc).
      by destruct rest.
Qed.

(** C9. For every u64, [format_group_id] is the prefix GROUP- followed by
    the decimal representation of the id: only digits (no separator), which
    denote the id, with no leading zero unless the id is 0. It maps 0 to
    GROUP-0 and u64::MAX to GROUP-18446744073709551615. *)
Theorem format_group_id_decimal (id : Z) :
  0 <= id <= u64_MAX ->
  (exists ds,
     format_group_id id = ("GROUP-" +:+ string_of_list_ascii ds)%string /\
     is_decimal_of ds id) /\
  format_group_id 0 = "GROUP-0"%string /\
  format_group_id 18446744073709551615 = "GROUP-18446744073709551615"%string.
Proof.
  intros Hid. split; [|split; reflexivity].
  exists (u64_digits id). split; [done|]. by apply u64_digits_decimal.
Qed.

(** ** The theorems at the sample group *)

Lemma sample_no_records a :
  storage sample_env !! contribution_individual 7 (current_cycle sample_group) a = None.
Proof.
  unfold sample_env, sample_storage. cbn [storage].
  rewrite !lookup_insert_ne by done. apply lookup_empty.
Qed.

Lemma contribute_failure_leaves_storage_witness :
  let env1 := snd (contribute 7 11%N sample_env) in
  let second := mkCall 7 11%N 1600 {[ 11%N ]} in
  invoke_contribute second env1 = (Err AlreadyContributed, enter second env1) /\
  storage (enter second env1) = storage env1.
Proof.
  cbn zeta.
  apply (proj1 (proj2 (contribute_failure_leaves_storage 7 11%N sample_env))).
  - vm_compute. reflexivity.
  - reflexivity.
  - reflexivity.
  - vm_compute. reflexivity.
Defined.

Lemma contribute_checks_member_group_status_witness :
  let stranger := mkEnv 1500 {[ 14%N ]} sample_storage [] in
  let orphan := mkEnv 1500 {[ 11%N ]} (<[member_profile 9 11%N := VMember]> sample_storage) [] in
  let unset := mkEnv 1500 {[ 11%N ]} (delete (group_status 7) sample_storage) [] in
  contribute 7 14%N stranger = (Err NotMember, stranger) /\
  contribute 9 11%N orphan = (Err GroupNotFound, orphan) /\
  contribute 7 11%N unset = (Err InvalidState, unset).
Proof.
  cbn zeta. split; [|split].
  - assert (14%N ∈ authorized (mkEnv 1500 {[ 14%N ]} sample_storage [])) as Hauth
      by (cbn [authorized]; set_solver).
    apply (proj1 (contribute_checks_member_group_status 7 14%N _ Hauth)).
    vm_compute. reflexivity.
  - assert (11%N ∈ authorized
              (mkEnv 1500 {[ 11%N ]} (<[member_profile 9 11%N := VMember]> sample_storage) []))
      as Hauth by (cbn [authorized]; set_solver).
    apply (proj1 (proj2 (contribute_checks_member_group_status 9 11%N _ Hauth))).
    + vm_compute. eexists. reflexivity.
    + vm_compute. reflexivity.
  - assert (11%N ∈ authorized
              (mkEnv 1500 {[ 11%N ]} (delete (group_status 7) sample_storage) []))
      as Hauth by (cbn [authorized]; set_solver).
    apply (proj1 (proj2 (proj2 (contribute_checks_member_group_status 7 11%N _ Hauth)))
             sample_group Forming).
    + vm_compute. eexists. reflexivity.
    + vm_compute. reflexivity.
    + vm_compute. reflexivity.
    + reflexivity.
Defined.

Lemma cycle_complete_fires_once_at_member_count_witness :
  completions 7 0 (events (snd (run sample_calls sample_env))) = 1%nat.
Proof.
  pose proof (proj2 (proj2 (proj2 cycle_complete_fires_once_at_member_count))
                sample_calls sample_env (fst (run sample_calls sample_env))
                (snd (run sample_calls sample_env)) 7 sample_group) as H.
  apply H.
  - vm_compute. reflexivity.
  - vm_compute. reflexivity.
  - vm_compute. reflexivity.
  - apply sample_no_records.
  - vm_compute. reflexivity.
Defined.

Lemma cycle_aggregates_follow_accepted_witness :
  cycle_total (storage (snd (run sample_calls sample_env))) 7 0 = 2 * 100 /\
  cycle_count (storage (snd (run sample_calls sample_env))) 7 0 = 2 /\
  records_total (storage (snd (run sample_calls sample_env))) 7 0
  = cycle_total (storage (snd (run sample_calls sample_env))) 7 0 /\
  records_count (storage (snd (run sample_calls sample_env))) 7 0 = 2.
Proof.
  apply (proj1 (proj2 (cycle_aggregates_follow_accepted sample_env 7 sample_group
                         ltac:(vm_compute; reflexivity)))
           ltac:(vm_compute; reflexivity) ltac:(vm_compute; reflexivity)
           sample_no_records sample_calls (fst (run sample_calls sample_env))).
  vm_compute. reflexivity.
Defined.

Lemma is_cycle_deadline_passed_spec_witness :
  is_cycle_deadline_passed sample_group 4600 = false /\
  (is_cycle_deadline_passed sample_group 4601 = true <-> 4601 > 4600).
Proof.
  split.
  - apply (proj2 (proj2 (is_cycle_deadline_passed_spec sample_group 4600) 1000 eq_refl)).
    reflexivity.
  - apply (proj1 (proj2 (is_cycle_deadline_passed_spec sample_group 4601) 1000 eq_refl)).
Defined.

Lemma first_cycle_deadline_boundary_witness :
  is_cycle_deadline_passed sample_group (1000 + 3600) = false /\
  is_cycle_deadline_passed sample_group (1000 + 3600 + 1) = true.
Proof.
  destruct (first_cycle_deadline_boundary sample_group 1000 eq_refl
              ltac:(simpl; lia) ltac:(simpl; lia)) as [H1 H2].
  split; [exact H1 | exact (H2 eq_refl)].
Defined.


Lemma is_group_active_spec_witness :
  exists b, is_group_active 7 sample_env = (Ok b, sample_env) /\
            (b = true <-> Active = Active /\ 1 <= 2 <= 3).
Proof.
  apply (proj2 (is_group_active_spec 7 sample_env) sample_group Active).
  - vm_compute. reflexivity.
  - vm_compute. reflexivity.
Defined.

Lemma format_group_id_decimal_witness :
  (exists ds,
     format_group_id 12345 = ("GROUP-" +:+ string_of_list_ascii ds)%string /\
     is_decimal_of ds 12345) /\
  format_group_id 0 = "GROUP-0"%string /\
  format_group_id 18446744073709551615 = "GROUP-18446744073709551615"%string.
Proof. apply (format_group_id_decimal 12345). unfold u64_MAX. lia. Defined.

Lemma contribute_writes_three_keys_witness :
  exists g,
    storage sample_env !! group_data 7 = Some (VGroup g) /\
    storage (snd (contribute 7 11%N sample_env)) !! group_data 7 = Some (VGroup g) /\
    storage (snd (contribute 7 11%N sample_env)) !! group_status 7
    = storage sample_env !! group_status 7 /\
    storage (snd (contribute 7 11%N sample_env)) !! member_profile 7 12%N
    = storage sample_env !! member_profile 7 12%N.
Proof.
  destruct (contribute_writes_three_keys 7 11%N sample_env
              (snd (contribute 7 11%N sample_env)) ltac:(vm_compute; reflexivity))
    as (g & Hg & _ & _ & Hst & Hmem & Hg' & _).
  exists g. split; [exact Hg|]. split; [exact Hg'|]. split; [apply Hst | apply Hmem].
Defined.

(** * Further properties of contribute *)

Lemma contribute_result group_id contributor env :
  fst (contribute group_id contributor env)
  = match contribute_outcome group_id contributor env with
    | Ok _ => Ok tt
    | Err e => Err e
    | Panic => Panic
    end.
Proof.
  pose proof (contribute_outcome_correct group_id contributor env) as H.
  destruct (contribute_outcome group_id contributor env); [by rewrite H..|done].
Qed.

(** X1. With the contributor authenticated, a member of a stored group
    whose status accepts contributions, [contribute] fails InvalidAmount
    when the group's contribution amount is not positive, whether or not a
    record of the cycle is stored, and AlreadyContributed when the amount is
    positive and the contributor's record of the current cycle is stored;
    both leave the environment as it is. *)
Theorem contribute_checks_amount_then_duplicate group_id contributor env g status :
  contributor ∈ authorized env ->
  is_Some (storage env !! member_profile group_id contributor) ->
  storage env !! group_data group_id = Some (VGroup g) ->
  read_or as_status Pending (storage env) (group_status group_id) = Some status ->
  accepts_contributions status = true ->
  (contribution_amount g <= 0 ->
   contribute group_id contributor env = (Err InvalidAmount, env)) /\
  (0 < contribution_amount g ->
   is_Some (storage env !! contribution_individual group_id (current_cycle g) contributor) ->
   contribute group_id contributor env = (Err AlreadyContributed, env)).
Proof.
  intros Hauth Hmem Hg Hst Hacc.
  assert (forall e, contribute_outcome group_id contributor env = Err e ->
                    contribute group_id contributor env = (Err e, env)) as Herr.
  { intros e He. by apply contribute_Err. }
  split.
  - intros Hamt. apply Herr. unfold contribute_outcome.
    rewrite !bool_decide_eq_true_2 by done. rewrite Hg. cbn [as_group].
    rewrite Hst, Hacc. apply Z.leb_le in Hamt. by rewrite Hamt.
  - intros Hamt Hrec. apply Herr. unfold contribute_outcome.
    rewrite !bool_decide_eq_true_2 by done. rewrite Hg. cbn [as_group].
    rewrite Hst, Hacc. apply Z.leb_gt in Hamt. rewrite Hamt.
    by rewrite bool_decide_eq_true_2.
Qed.

(** X2. [contribute] returns Ok exactly when the contributor is
    authenticated and a member, the group is stored with a status that
    accepts contributions and a positive amount, no record of the
    contributor is stored for the current cycle, the two aggregates read
    (with 0 for an absent key) as an i128 and a u32, and total + amount and
    count + 1 stay in range; the environment it leaves is then
    [contributed]. *)
Theorem contribute_accepted_exactly_when group_id contributor env env' :
  contribute group_id contributor env = (Ok tt, env') <->
  exists g total count,
    (contributor ∈ authorized env /\
     is_Some (storage env !! member_profile group_id contributor) /\
     storage env !! group_data group_id = Some (VGroup g) /\
     (exists status,
        read_or as_status Pending (storage env) (group_status group_id) = Some status /\
        accepts_contributions status = true) /\
     0 < contribution_amount g /\
     storage env !! contribution_individual group_id (current_cycle g) contributor = None /\
     read_or as_i128 0 (storage env) (contribution_cycle_total group_id (current_cycle g))
     = Some total /\
     read_or as_u32 0 (storage env) (contribution_cycle_count group_id (current_cycle g))
     = Some count /\
     i128_MIN <= total + contribution_amount g <= i128_MAX /\
     0 <= count + 1 <= u32_MAX) /\
    env' = contributed env group_id contributor g total count.
Proof.
  rewrite contribute_Ok. unfold in_i128, in_u32.
  split.
  - intros (g & total & count & [H1 H2 H3 H4 H5 H6 H7 H8 H9 H10] & ->).
    exists g, total, count. split; [|done].
    apply andb_true_iff in H9 as [? ?]. apply andb_true_iff in H10 as [? ?].
    repeat split; try done; lia.
  - intros (g & total & count & (H1 & H2 & H3 & H4 & H5 & H6 & H7 & H8 & H9 & H10) & ->).
    exists g, total, count. split; [|done].
    constructor; try done; apply andb_true_iff; split; lia.
Qed.

(** X3. [contribute] does not trap when the contributor is authenticated,
    the values stored under the group, status, total and count keys it
    reads are of their types, and for the stored group the sums total +
    amount and count + 1 stay in range: it returns Ok or one of its
    errors. *)
Theorem contribute_returns_when_typed_and_in_range group_id contributor env :
  contributor ∈ authorized env ->
  (forall v, storage env !! group_data group_id = Some v -> is_Some (as_group v)) ->
  is_Some (read_or as_status Pending (storage env) (group_status group_id)) ->
  (forall g, storage env !! group_data group_id = Some (VGroup g) ->
     exists total count,
       read_or as_i128 0 (storage env) (contribution_cycle_total group_id (current_cycle g))
       = Some total /\
       read_or as_u32 0 (storage env) (contribution_cycle_count group_id (current_cycle g))
       = Some count /\
       in_i128 (total + contribution_amount g) = true /\
       in_u32 (count + 1) = true) ->
  fst (contribute group_id contributor env) = Ok tt \/
  exists e, fst (contribute group_id contributor env) = Err e.
Proof.
  intros Hauth Hgt [status Hst] Hagg.
  rewrite contribute_result. unfold contribute_outcome.
  rewrite bool_decide_eq_true_2 by done.
  case_bool_decide; [|eauto].
  destruct (storage env !! group_data group_id) as [v|] eqn:Hg; [|eauto].
  destruct (Hgt v eq_refl) as [g Hv]. rewrite Hv.
  apply as_group_Some in Hv as ->.
  destruct (Hagg g eq_refl) as (total & count & Ht & Hc & Htr & Hcr).
  rewrite Hst, Ht, Hc, Htr, Hcr.
  repeat (case_bool_decide || case_match); simplify_eq; eauto.
Qed.

(** X4. [contribute] enforces no deadline: whether it returns Ok, an
    error or traps does not depend on the ledger timestamp, and a
    contribution accepted at one time is accepted at any other with the
    same storage, but for the contributed_at of the record. *)
Theorem contribute_ignores_ledger_time group_id contributor env t :
  fst (contribute group_id contributor (at_time env t))
  = fst (contribute group_id contributor env) /\
  (forall env',
     contribute group_id contributor env = (Ok tt, env') ->
     exists g env'',
       storage env !! group_data group_id = Some (VGroup g) /\
       contribute group_id contributor (at_time env t) = (Ok tt, env'') /\
       storage env''
       = <[contribution_individual group_id (current_cycle g) contributor :=
             VContribution (ContributionRecord.new contributor group_id (current_cycle g)
                              (contribution_amount g) t)]> (storage env')).
Proof.
  split.
  - rewrite !contribute_result. unfold contribute_outcome, at_time.
    cbn [storage authorized].
    repeat (case_bool_decide || case_match); simplify_eq; done.
  - intros env' H. apply contribute_Ok in H as (g & total & count & Hacc & ->).
    exists g, (contributed (at_time env t) group_id contributor g total count).
    split; [by destruct Hacc|]. split.
    + apply contribute_Ok. exists g, total, count. split; [|done].
      destruct Hacc. by constructor.
    + unfold contributed, at_time. cbn [storage ledger_timestamp].
      apply map_eq. intros k. rewrite !lookup_insert.
      repeat case_decide; simplify_eq; done.
Qed.

(** ** What a sequence of contributions keeps *)

Lemma invoke_contribute_keeps call env r env' :
  invoke_contribute call env = (r, env') ->
  (forall k, is_config_key k = true -> storage env' !! k = storage env !! k) /\
  (forall k, is_Some (storage env !! k) -> is_Some (storage env' !! k)) /\
  (forall g c a, is_Some (storage env !! contribution_individual g c a) ->
     storage env' !! contribution_individual g c a
     = storage env !! contribution_individual g c a) /\
  (forall k, key_group k <> call_group call -> storage env' !! k = storage env !! k) /\
  (exists emitted, events env' = events env ++ emitted).
Proof.
  intros Hinv.
  apply invoke_contribute_cases in Hinv
    as [(-> & g' & total & count & Hacc & ->)|[_ ->]].
  - destruct Hacc as [_ _ _ _ _ Hfresh _ _ _ _]. rewrite enter_storage in Hfresh.
    split; [|split; [|split; [|split]]].
    + intros k Hk. rewrite contributed_lookup_other; [done|..]; intros ->; done.
    + intros k Hk. unfold contributed. cbn [storage enter].
      rewrite !lookup_insert. repeat case_decide; simplify_eq; done.
    + intros g c a Hsome. rewrite contributed_lookup_other; [done| |done|done].
      intros Heq. rewrite Heq, Hfresh in Hsome. by destruct Hsome.
    + intros k Hk. rewrite contributed_lookup_other; [done|..]; intros ->; done.
    + unfold contributed. cbn [events enter]. eauto.
  - rewrite enter_storage. cbn [enter events].
    repeat split; try done. exists []. by rewrite app_nil_r.
Qed.

(** X5. Over any sequence of invocations of [contribute], every group
    record, group status and member profile keeps its value, no key is
    removed from the store, a stored ContributionRecord keeps its value,
    the keys of a group no call is addressed to keep their values, and the
    event log is extended, never rewritten. *)
Theorem run_keeps_configuration calls : forall env results env',
  run calls env = (results, env') ->
  (forall k, is_config_key k = true -> storage env' !! k = storage env !! k) /\
  (forall k, is_Some (storage env !! k) -> is_Some (storage env' !! k)) /\
  (forall g c a, is_Some (storage env !! contribution_individual g c a) ->
     storage env' !! contribution_individual g c a
     = storage env !! contribution_individual g c a) /\
  (forall k, (forall call, call ∈ calls -> call_group call <> key_group k) ->
     storage env' !! k = storage env !! k) /\
  (exists emitted, events env' = events env ++ emitted).
Proof.
  induction calls as [|call calls IH]; intros env results env' Hrun.
  - simpl in Hrun. simplify_eq. repeat split; try done. exists []. by rewrite app_nil_r.
  - rewrite run_cons in Hrun.
    destruct (invoke_contribute call env) as [r env1] eqn:Hinv.
    destruct (run calls env1) as [rs env2] eqn:Hrest. simplify_eq.
    destruct (invoke_contribute_keeps _ _ _ _ Hinv) as (H1 & H2 & H3 & H4 & [l1 H5]).
    destruct (IH _ _ _ Hrest) as (I1 & I2 & I3 & I4 & [l2 I5]).
    split; [|split; [|split; [|split]]].
    + intros k Hk. by rewrite I1, H1.
    + intros k Hk. by apply I2, H2.
    + intros g c a Hsome. rewrite I3; [by apply H3|]. by apply H2.
    + intros k Hk. rewrite I4, H4; [done| |].
      * intros Heq. apply (Hk call); [left|done].
      * intros call' Hin. apply Hk. by right.
    + exists (l1 ++ l2). by rewrite I5, H5, app_assoc.
Qed.

Lemma made_for_app group_id l1 l2 :
  made_for group_id (l1 ++ l2) = made_for group_id l1 + made_for group_id l2.
Proof. unfold made_for. rewrite filter_app, length_app. lia. Qed.

Lemma made_for_contributed env group_id contributor g total count id :
  made_for id (events (contributed env group_id contributor g total count))
  = made_for id (events env) + if bool_decide (group_id = id) then 1 else 0.
Proof.
  unfold contributed. cbn [events]. rewrite made_for_app. f_equal.
  unfold made_for.
  destruct (count + 1 =? member_count g); case_bool_decide;
    rewrite ?filter_cons; cbn [is_made_for];
    repeat (case_decide; try case_bool_decide; simplify_eq; try done).
Qed.

(** X6. Over any sequence of invocations of [contribute], the
    ContributionMade events of a group added to the log are as many as the
    contributions to the group that were accepted: one per accepted call,
    none for a rejected or trapped one. *)
Theorem run_emits_one_made_per_accepted calls : forall env results env' group_id,
  run calls env = (results, env') ->
  made_for group_id (events env')
  = made_for group_id (events env) + accepted group_id calls results.
Proof.
  induction calls as [|call calls IH]; intros env results env' group_id Hrun.
  - simpl in Hrun. simplify_eq. simpl. lia.
  - rewrite run_cons in Hrun.
    destruct (invoke_contribute call env) as [r env1] eqn:Hinv.
    destruct (run calls env1) as [rs env2] eqn:Hrest. simplify_eq.
    rewrite (IH _ _ _ group_id Hrest). cbn [accepted].
    apply invoke_contribute_cases in Hinv
      as [(-> & g' & total & count & Hacc & ->)|[Hr ->]].
    + rewrite made_for_contributed. cbn [enter events is_ok].
      rewrite andb_true_r. lia.
    + rewrite Hr, andb_false_r. cbn [enter events]. lia.
Qed.

(** X7. A group whose status, as [contribute] reads it, does not accept
    contributions accepts none over any sequence of invocations: no call
    to it returns Ok, every key of the group keeps its value and no
    ContributionMade of the group is emitted. *)
Theorem run_closed_group_accepts_nothing calls : forall env results env' group_id,
  (forall status,
     read_or as_status Pending (storage env) (group_status group_id) = Some status ->
     accepts_contributions status = false) ->
  run calls env = (results, env') ->
  accepted group_id calls results = 0 /\
  (forall k, key_group k = group_id -> storage env' !! k = storage env !! k) /\
  made_for group_id (events env') = made_for group_id (events env).
Proof.
  induction calls as [|call calls IH]; intros env results env' group_id Hclosed Hrun.
  - simpl in Hrun. by simplify_eq.
  - rewrite run_cons in Hrun.
    destruct (invoke_contribute call env) as [r env1] eqn:Hinv.
    destruct (run calls env1) as [rs env2] eqn:Hrest. simplify_eq.
    assert (bool_decide (call_group call = group_id) && is_ok r = false
            /\ (forall k, key_group k = group_id -> storage env1 !! k = storage env !! k)
            /\ made_for group_id (events env1) = made_for group_id (events env))
      as (Hno & Hsame & Hmade).
    { pose proof Hinv as Hcases.
      apply invoke_contribute_cases in Hcases
        as [(-> & g' & total & count & Hacc & ->)|[Hr ->]].
      - destruct Hacc as [_ _ _ (status & Hst & Hsa) _ _ _ _ _ _].
        rewrite enter_storage in Hst.
        case_bool_decide as Hid.
        + rewrite Hid in Hst. rewrite (Hclosed _ Hst) in Hsa. done.
        + split; [done|]. split.
          * intros k Hk.
            rewrite contributed_lookup_other; [done|..]; intros ->; simpl in Hk; done.
          * rewrite made_for_contributed. cbn [enter events].
            rewrite bool_decide_eq_false_2 by done. lia.
      - by rewrite Hr, andb_false_r. }
    assert (forall status,
      read_or as_status Pending (storage env1) (group_status group_id) = Some status ->
      accepts_contributions status = false) as Hclosed1.
    { intros status. unfold read_or. rewrite Hsame by done. apply Hclosed. }
    destruct (IH _ _ _ _ Hclosed1 Hrest) as (IHacc & IHkeys & IHmade).
    cbn [accepted]. rewrite Hno, IHacc. split; [done|]. split.
    + intros k Hk. by rewrite IHkeys, Hsame.
    + by rewrite IHmade.
Qed.

(** ** One contribution per member and cycle, in any order *)

(** A contributor accepted during a sequence had no record of the group's
    current cycle when the sequence started. *)
Lemma accepted_contributor_was_fresh calls : forall env results env' group_id a,
  run calls env = (results, env') ->
  a ∈ accepted_contributors group_id calls results ->
  exists g,
    storage env !! group_data group_id = Some (VGroup g) /\
    storage env !! contribution_individual group_id (current_cycle g) a = None.
Proof.
  induction calls as [|call calls IH]; intros env results env' group_id a Hrun Hin.
  - simpl in Hrun. simplify_eq. simpl in Hin. by apply elem_of_nil in Hin.
  - rewrite run_cons in Hrun.
    destruct (invoke_contribute call env) as [r env1] eqn:Hinv.
    destruct (run calls env1) as [rs env2] eqn:Hrest. simplify_eq.
    cbn [accepted_contributors] in Hin. apply elem_of_app in Hin as [Hin|Hin].
    + destruct (bool_decide (call_group call = group_id) && is_ok r) eqn:Hb;
        [|by apply elem_of_nil in Hin].
      apply list_elem_of_singleton in Hin as ->.
      apply andb_true_iff in Hb as [Hid Hok]. apply bool_decide_eq_true in Hid.
      apply invoke_contribute_cases in Hinv
        as [(-> & g & total & count & Hacc & ->)|[Hr _]]; [|by rewrite Hr in Hok].
      destruct Hacc as [_ _ Hg _ _ Hfresh _ _ _ _]. rewrite enter_storage in *.
      rewrite Hid in *. by exists g.
    + destruct (IH _ _ _ _ _ Hrest Hin) as (g & Hg & Hnone).
      destruct (invoke_contribute_keeps _ _ _ _ Hinv) as (H1 & H2 & _).
      exists g. split; [by rewrite <- H1|].
      apply eq_None_not_Some. intros Hsome. apply H2 in Hsome.
      rewrite Hnone in Hsome. by destruct Hsome.
Qed.

(** X8. Over any sequence of invocations of [contribute], the accepted
    contributions to one group come from pairwise distinct contributors:
    nobody contributes twice to a cycle, whatever the order and the
    timestamps of the calls. *)
Theorem run_accepts_each_contributor_once calls : forall env results env' group_id,
  run calls env = (results, env') ->
  NoDup (accepted_contributors group_id calls results).
Proof.
  induction calls as [|call calls IH]; intros env results env' group_id Hrun.
  - simpl in Hrun. simplify_eq. constructor.
  - rewrite run_cons in Hrun.
    destruct (invoke_contribute call env) as [r env1] eqn:Hinv.
    destruct (run calls env1) as [rs env2] eqn:Hrest. simplify_eq.
    cbn [accepted_contributors].
    destruct (bool_decide (call_group call = group_id) && is_ok r) eqn:Hb;
      [|by eapply IH].
    cbn [app]. constructor; [|by eapply IH].
    intros Hin.
    destruct (accepted_contributor_was_fresh _ _ _ _ _ _ Hrest Hin) as (g & Hg & Hnone).
    apply andb_true_iff in Hb as [Hid Hok]. apply bool_decide_eq_true in Hid.
    apply invoke_contribute_cases in Hinv
      as [(-> & g' & total & count & Hacc & ->)|[Hr _]]; [|by rewrite Hr in Hok].
    destruct Hacc as [_ _ Hg' _ _ _ _ _ _ _]. rewrite enter_storage in *.
    rewrite Hid in *.
    rewrite contributed_lookup_other in Hg by done.
    rewrite enter_storage, Hg' in Hg. simplify_eq.
    by rewrite contributed_lookup_record in Hnone.
Qed.





(** * The front end *)

(** ** Pagination *)

Lemma marks_gaps_numbers (n : nat) : forall prev rest,
  marks_gaps (prev + Z.of_nat n) rest ->
  marks_gaps prev ((PageNumber <$> seqZ (prev + 1) (Z.of_nat n)) ++ rest).
Proof.
  induction n as [|n IH]; intros prev rest Hrest.
  - rewrite seqZ_nil by lia. simpl. by rewrite Z.add_0_r in Hrest.
  - rewrite seqZ_cons by lia. cbn [fmap list_fmap app marks_gaps]. split; [done|].
    replace (Z.pred (Z.of_nat (S n))) with (Z.of_nat n) by lia.
    replace (Z.succ (prev + 1)) with (prev + 1 + 1) by lia.
    apply IH. replace (prev + 1 + Z.of_nat n) with (prev + Z.of_nat (S n)) by lia. done.
Qed.

Lemma marks_gaps_window prev s e rest :
  s = prev + 1 -> s <= e + 1 ->
  marks_gaps e rest ->
  marks_gaps prev ((PageNumber <$> seqZ s (e - s + 1)) ++ rest).
Proof.
  intros -> Hle Hrest.
  replace (e - (prev + 1) + 1) with (Z.of_nat (Z.to_nat (e - prev))) by lia.
  apply marks_gaps_numbers. by replace (prev + Z.of_nat (Z.to_nat (e - prev))) with e by lia.
Qed.

Lemma fmap_succ_seqZ n :
  (fun i => PageNumber (i + 1)) <$> seqZ 0 n = PageNumber <$> seqZ 1 n.
Proof.
  apply list_eq. intros i. rewrite !list_lookup_fmap.
  destruct (decide (Z.of_nat i < n)).
  - rewrite !lookup_seqZ_lt by done. simpl. f_equal. f_equal. lia.
  - rewrite !lookup_seqZ_ge by lia. done.
Qed.

Lemma elem_of_page_window (p s n : Z) :
  s <= p < s + n -> PageNumber p ∈ (PageNumber <$> seqZ s n : list PageItem).
Proof.
  intros Hp. apply list_elem_of_fmap. exists p. split; [done|].
  apply elem_of_seqZ. lia.
Qed.

(** X10. With at least one page and maxVisiblePages >= 1,
    [getVisiblePages] starts at page 1, ends at the last page and lists
    page numbers in ascending order, consecutive except across an ellipsis,
    which stands for at least one page left out; the current page (clamped
    to the valid range) is always listed, and the list has at most
    maxVisiblePages + 5 entries. *)
Theorem getVisiblePages_well_formed (currentPage total maxVisible : Z) :
  1 <= total -> 1 <= maxVisible ->
  let pages := getVisiblePages currentPage total maxVisible in
  marks_gaps 0 pages /\
  head pages = Some (PageNumber 1) /\
  last pages = Some (PageNumber total) /\
  PageNumber (safePage currentPage total) ∈ pages /\
  1 <= safePage currentPage total <= total /\
  Z.of_nat (length pages) <= maxVisible + 5.
Proof.
  intros Ht Hm pages. subst pages. unfold getVisiblePages.
  set (safe := safePage currentPage total).
  assert (1 <= safe <= total) as Hsafe by (unfold safe, safePage; lia).
  destruct (total <=? maxVisible) eqn:Hsmall.
  - apply Z.leb_le in Hsmall. rewrite fmap_succ_seqZ.
    split; [|split; [|split; [|split; [|split]]]].
    + rewrite <- (app_nil_r (_ <$> _)).
      replace total with (total - 1 + 1) at 1 by lia.
      apply (marks_gaps_window 0 1 total []); [lia|lia|done].
    + by rewrite seqZ_cons by lia.
    + replace total with (Z.of_nat (S (Z.to_nat (total - 1)))) at 1 by lia.
      rewrite seqZ_S, fmap_app. cbn [fmap list_fmap]. rewrite last_snoc. do 2 f_equal. lia.
    + apply elem_of_page_window. lia.
    + done.
    + rewrite length_fmap, length_seqZ. lia.
  - apply Z.leb_gt in Hsmall.
    set (half := maxVisible / 2).
    assert (0 <= half /\ 2 * half <= maxVisible /\ maxVisible <= 2 * half + 1) as Hhalf.
    { unfold half. pose proof (Z.div_mod maxVisible 2 ltac:(lia)).
      pose proof (Z.mod_pos_bound maxVisible 2 ltac:(lia)). lia. }
    assert (exists s e,
      (if safe <=? half then (Z.max 1 (safe - half), Z.min total maxVisible)
       else if total - half <=? safe
            then (Z.max 1 (total - maxVisible + 1), Z.min total (safe + half))
            else (Z.max 1 (safe - half), Z.min total (safe + half))) = (s, e)
      /\ 1 <= s <= safe /\ safe <= e <= total /\ e - s <= maxVisible) as (s & e & -> & Hs & He & Hw).
    { destruct (safe <=? half) eqn:H1; [|destruct (total - half <=? safe) eqn:H2];
        eexists; eexists; (split; [reflexivity|]); lia. }
    split; [|split; [|split; [|split; [|split]]]].
    + assert (marks_gaps e (if e <? total
                            then (if e <? total - 1 then [Ellipsis] else [])
                                 ++ [PageNumber total]
                            else [])) as Hsuffix.
      { destruct (e <? total) eqn:H1; [|done].
        destruct (e <? total - 1) eqn:H2; simpl; lia. }
      destruct (1 <? s) eqn:H1; [destruct (2 <? s) eqn:H2|].
      * cbn [app marks_gaps]. split; [done|].
        assert (marks_gaps (s - 1) ((PageNumber <$> seqZ s (e - s + 1)) ++
                  (if e <? total
                   then (if e <? total - 1 then [Ellipsis] else []) ++ [PageNumber total]
                   else []))) as Hwin
          by (apply marks_gaps_window; [lia|lia|done]).
        rewrite seqZ_cons in * by lia. cbn [fmap list_fmap app marks_gaps] in *.
        split; [lia|]. by destruct Hwin.
      * cbn [app marks_gaps]. split; [done|].
        apply marks_gaps_window; [lia|lia|done].
      * cbn [app]. apply marks_gaps_window; [lia|lia|done].
    + destruct (1 <? s) eqn:H1; [done|].
      apply Z.ltb_ge in H1. assert (s = 1) as -> by lia.
      by rewrite seqZ_cons by lia.
    + destruct (e <? total) eqn:H1.
      * rewrite !app_assoc. apply last_snoc.
      * rewrite app_nil_r. assert (e = total) as -> by lia.
        replace (total - s + 1) with (Z.of_nat (S (Z.to_nat (total - s)))) by lia.
        rewrite seqZ_S, fmap_app. cbn [fmap list_fmap]. rewrite app_assoc, last_snoc.
        do 2 f_equal. lia.
    + apply elem_of_app. right. apply elem_of_app. left.
      apply elem_of_page_window. lia.
    + done.
    + rewrite !length_app, length_fmap, length_seqZ.
      destruct (1 <? s); destruct (2 <? s); destruct (e <? total);
        destruct (e <? total - 1); simpl; lia.
Qed.

(** ** GroupList: the pages of the list *)

Lemma slice_take_drop {A} (l : list A) (start final : Z) :
  0 <= start <= final ->
  slice l start final = take (Z.to_nat (final - start)) (drop (Z.to_nat start) l).
Proof.
  intros H. unfold slice.
  destruct (start <? 0) eqn:H1; [apply Z.ltb_lt in H1; lia|].
  destruct (final <? 0) eqn:H2; [apply Z.ltb_lt in H2; lia|].
  destruct (decide (Z.of_nat (length l) <= start)) as [Hge|Hlt].
  - rewrite !drop_ge by lia. by rewrite !take_nil.
  - replace (Z.min start (Z.of_nat (length l))) with start by lia.
    destruct (decide (final <= Z.of_nat (length l))) as [Hle|Hgt].
    + by replace (Z.min final (Z.of_nat (length l))) with final by lia.
    + rewrite !take_ge; [done|rewrite length_drop; lia|rewrite length_drop; lia].
Qed.

Lemma Math_ceil_div_bounds (n p : Z) :
  1 <= p -> (Math_ceil_div n p - 1) * p < n <= Math_ceil_div n p * p.
Proof.
  intros Hp. unfold Math_ceil_div.
  pose proof (Z.div_mod (- n) p ltac:(lia)).
  pose proof (Z.mod_pos_bound (- n) p ltac:(lia)). nia.
Qed.

Lemma pages_concat {A} (l : list A) (p : Z) (m : nat) :
  1 <= p ->
  concat ((fun c => paginatedGroups l c p true) <$> seqZ 1 (Z.of_nat m))
  = take (m * Z.to_nat p) l.
Proof.
  intros Hp. induction m as [|m IH].
  - done.
  - rewrite seqZ_S, fmap_app, concat_app, IH. cbn [fmap list_fmap concat].
    rewrite app_nil_r. unfold paginatedGroups. cbn [negb].
    rewrite slice_take_drop by nia.
    replace (Z.to_nat ((1 + Z.of_nat m - 1) * p + p - (1 + Z.of_nat m - 1) * p))
      with (Z.to_nat p) by lia.
    replace (Z.to_nat ((1 + Z.of_nat m - 1) * p)) with (m * Z.to_nat p)%nat by nia.
    rewrite take_take_drop. f_equal. lia.
Qed.

(** X11. With a page size of at least 1, the pages of [GroupList] from 1
    to totalPages = ceil(length / pageSize), one after the other, are the
    sorted list: every group is on exactly one page, in order; each page
    holds at most pageSize groups, and a page past the last is empty. *)
Theorem groupList_pages_partition {A} (sortedGroups : list A) (pageSize : Z) :
  1 <= pageSize ->
  concat ((fun page => paginatedGroups sortedGroups page pageSize true)
            <$> seqZ 1 (totalPages sortedGroups pageSize))
  = sortedGroups /\
  (forall page, 1 <= page ->
     Z.of_nat (length (paginatedGroups sortedGroups page pageSize true)) <= pageSize) /\
  (forall page, totalPages sortedGroups pageSize < page ->
     paginatedGroups sortedGroups page pageSize true = []).
Proof.
  intros Hp. unfold totalPages.
  pose proof (Math_ceil_div_bounds (Z.of_nat (length sortedGroups)) pageSize Hp) as Hb.
  set (T := Math_ceil_div (Z.of_nat (length sortedGroups)) pageSize) in *.
  assert (0 <= T) as HT by nia.
  split; [|split].
  - replace T with (Z.of_nat (Z.to_nat T)) by lia.
    rewrite pages_concat by done. apply take_ge. nia.
  - intros page Hpage. unfold paginatedGroups. cbn [negb].
    rewrite slice_take_drop by nia. rewrite length_take. lia.
  - intros page Hpage. unfold paginatedGroups. cbn [negb].
    rewrite slice_take_drop by nia. rewrite drop_ge; [by rewrite take_nil|]. nia.
Qed.

(** X12. On a valid page of a non-empty list (page size at least 1,
    1 <= currentPage <= totalPages), the range "Showing a-b of n" that
    [Pagination] prints is the range of the groups [GroupList] shows: the
    page holds the groups number a to b of the sorted list, b - a + 1 of
    them, at least one and at most pageSize. *)
Theorem pagination_range_matches_page {A} (sortedGroups : list A)
    (currentPage pageSize : Z) :
  1 <= pageSize ->
  1 <= currentPage <= totalPages sortedGroups pageSize ->
  let n := Z.of_nat (length sortedGroups) in
  let T := totalPages sortedGroups pageSize in
  let a := startItem currentPage T pageSize n in
  let b := endItem currentPage T pageSize n in
  let page := paginatedGroups sortedGroups currentPage pageSize true in
  1 <= a <= b /\ b <= n /\
  Z.of_nat (length page) = b - a + 1 /\
  b - a + 1 <= pageSize /\
  page = take (Z.to_nat (b - a + 1)) (drop (Z.to_nat (a - 1)) sortedGroups).
Proof.
  intros Hp Hc n T a b page. subst n T a b page.
  unfold totalPages in *.
  pose proof (Math_ceil_div_bounds (Z.of_nat (length sortedGroups)) pageSize Hp) as Hb.
  set (T := Math_ceil_div (Z.of_nat (length sortedGroups)) pageSize) in *.
  set (n := Z.of_nat (length sortedGroups)) in *.
  assert (1 <= n) as Hn by nia.
  unfold startItem, endItem, safePage, paginatedGroups. cbn [negb].
  replace (Z.max 1 (Z.min currentPage T)) with currentPage by lia.
  destruct (n =? 0) eqn:Hz; [apply Z.eqb_eq in Hz; lia|].
  rewrite slice_take_drop by nia.
  assert ((currentPage - 1) * pageSize < n) as Hstart by nia.
  split; [nia|]. split; [lia|].
  rewrite length_take, length_drop.
  split; [nia|]. split; [nia|].
  replace (Z.to_nat ((currentPage - 1) * pageSize + 1 - 1))
    with (Z.to_nat ((currentPage - 1) * pageSize)) by lia.
  destruct (decide (currentPage * pageSize <= n)) as [Hle|Hgt].
  - f_equal. nia.
  - rewrite !take_ge; [done|rewrite length_drop; nia|rewrite length_drop; nia].
Qed.

(** ** Tabs: keyboard navigation *)

Lemma findIndex_range {A} (p : A -> bool) (l : list A) :
  -1 <= findIndex p l < Z.of_nat (length l).
Proof.
  induction l as [|x l IH]; simpl; [lia|].
  destruct (p x); [lia|]. destruct (findIndex p l <? 0) eqn:H; lia.
Qed.

Lemma findIndex_unique {A} (p : A -> bool) (l : list A) (i : nat) x :
  l !! i = Some x -> p x = true ->
  (forall j y, l !! j = Some y -> p y = true -> j = i) ->
  findIndex p l = Z.of_nat i.
Proof.
  revert i. induction l as [|z l IH]; intros i Hi Hp Huniq; [done|].
  simpl. destruct (p z) eqn:Hz.
  - rewrite <- (Huniq 0%nat z eq_refl Hz). done.
  - destruct i as [|i]; [simpl in Hi; congruence|].
    rewrite (IH i); [|done|done|].
    + destruct (Z.of_nat i <? 0) eqn:Hneg; lia.
    + intros j y Hj Hy. specialize (Huniq (S j) y Hj Hy). lia.
Qed.

Lemma array_get_Some {A} (l : list A) (i : Z) :
  0 <= i < Z.of_nat (length l) -> is_Some (array_get l (Some i)).
Proof.
  intros Hi. unfold array_get. destruct (i <? 0) eqn:H; [lia|].
  apply lookup_lt_is_Some. lia.
Qed.

Lemma array_get_elem_of {A} (l : list A) index x :
  array_get l index = Some x -> x ∈ l.
Proof.
  unfold array_get. destruct index as [i|]; [|done].
  destruct (i <? 0); [done|]. apply list_elem_of_lookup_2.
Qed.

(** X13. A key press in [Tabs] never activates or focuses a disabled
    tab: the id [handleKeyDown] hands on is that of an enabled tab of the
    list. When the list has an enabled tab, every arrow key of the
    orientation, Home and End does activate one, also from a disabled
    current tab; any other key activates none. *)
Theorem handleKeyDown_lands_on_enabled_tab tabs orientation key currentIndex :
  (forall id, handleKeyDown tabs orientation key currentIndex = Some id ->
     exists tab, tab ∈ tabs /\ tab_id tab = id /\ tab_disabled tab = false) /\
  (is_Some (tabs !! currentIndex) ->
   (exists tab, tab ∈ tabs /\ tab_disabled tab = false) ->
   is_navigation_key orientation key = true ->
   is_Some (handleKeyDown tabs orientation key currentIndex)) /\
  (is_navigation_key orientation key = false ->
   handleKeyDown tabs orientation key currentIndex = None).
Proof.
  unfold handleKeyDown, is_navigation_key, forward_key, backward_key.
  set (enabled := filter (fun tab => tab_disabled tab = false) tabs).
  destruct (tabs !! currentIndex) as [current|] eqn:Hcur.
  2:{ split; [done|]. split; [by intros [? ?]|done]. }
  set (cei := findIndex (fun tab => bool_decide (tab_id tab = tab_id current)) enabled).
  pose proof (findIndex_range (fun tab => bool_decide (tab_id tab = tab_id current)) enabled)
    as Hrange. fold cei in Hrange.
  split; [|split].
  - intros id H.
    destruct (if bool_decide (key = _) then _ else _) as [index|]; [|done].
    destruct (array_get enabled index) as [next|] eqn:Hget; [|done].
    apply array_get_elem_of in Hget. apply list_elem_of_filter in Hget as [Hen Hin].
    unfold handleTabClick in H. rewrite Hen in H. simplify_eq. by exists next.
  - intros _ (tab & Hin & Hen) Hkey.
    assert (tab ∈ enabled) as Hin' by (by apply list_elem_of_filter).
    assert (1 <= Z.of_nat (length enabled)) as Hlen.
    { destruct enabled; [by apply elem_of_nil in Hin'|simpl; lia]. }
    assert (forall i, 0 <= i < Z.of_nat (length enabled) ->
              is_Some (match array_get enabled (Some i) with
                       | Some nextTab => handleTabClick (tab_id nextTab) (tab_disabled nextTab)
                       | None => None
                       end)) as Hok.
    { intros i Hi. destruct (array_get_Some enabled i Hi) as [next Hnext].
      rewrite Hnext. apply array_get_elem_of in Hnext.
      apply list_elem_of_filter in Hnext as [Hen' _].
      unfold handleTabClick. by rewrite Hen'. }
    unfold js_rem. destruct (Z.of_nat (length enabled) =? 0) eqn:Hz; [lia|].
    assert (0 <= Z.rem (cei + 1) (Z.of_nat (length enabled)) < Z.of_nat (length enabled))
      as Hfwd by (apply Z.rem_bound_pos; lia).
    assert (0 <= Z.rem (cei - 1 + Z.of_nat (length enabled)) (Z.of_nat (length enabled))
            < Z.of_nat (length enabled)) as Hbwd.
    { destruct (decide (cei - 1 + Z.of_nat (length enabled) < 0)) as [Hneg|Hpos].
      - assert (cei = -1 /\ Z.of_nat (length enabled) = 1) as [-> ->] by lia. by vm_compute.
      - apply Z.rem_bound_pos; lia. }
    repeat case_bool_decide; try (by apply Hok); try (apply Hok; lia);
      exfalso; cbn in Hkey; done.
  - intros Hkey. repeat case_bool_decide; try done; cbn in Hkey; done.
Qed.

Lemma enabled_ids_NoDup tabs :
  NoDup (tab_id <$> tabs) ->
  NoDup (tab_id <$> filter (fun tab => tab_disabled tab = false) tabs).
Proof.
  intros Hnd. eapply sublist_NoDup; [exact Hnd|].
  apply fmap_sublist, sublist_filter.
Qed.

Lemma same_id_same_tab tabs t1 t2 :
  NoDup (tab_id <$> tabs) -> t1 ∈ tabs -> t2 ∈ tabs -> tab_id t1 = tab_id t2 -> t1 = t2.
Proof.
  intros Hnd H1 H2 Hid.
  apply list_elem_of_lookup_1 in H1 as [i Hi]. apply list_elem_of_lookup_1 in H2 as [j Hj].
  assert (i = j) as ->.
  { eapply (NoDup_lookup _ _ _ _ Hnd); rewrite list_lookup_fmap.
    - by rewrite Hi.
    - rewrite Hj. simpl. by rewrite Hid. }
  congruence.
Qed.

(** From an enabled tab, at position [a] among the enabled tabs, the
    forward arrow activates the enabled tab at position a + 1 and the
    backward arrow the one at position a - 1, modulo their number. *)
Lemma handleKeyDown_arrows tabs orientation i current (a : nat) :
  let enabled := filter (fun tab => tab_disabled tab = false) tabs in
  let len := Z.of_nat (length enabled) in
  NoDup (tab_id <$> tabs) ->
  tabs !! i = Some current ->
  enabled !! a = Some current ->
  handleKeyDown tabs orientation (forward_key orientation) i
  = tab_id <$> enabled !! Z.to_nat ((Z.of_nat a + 1) mod len) /\
  handleKeyDown tabs orientation (backward_key orientation) i
  = tab_id <$> enabled !! Z.to_nat ((Z.of_nat a - 1) mod len).
Proof.
  intros enabled len Hnd Hi Ha.
  pose proof (lookup_lt_Some _ _ _ Ha) as Hlt.
  assert (findIndex (fun tab => bool_decide (tab_id tab = tab_id current)) enabled
          = Z.of_nat a) as Hfind.
  { apply (findIndex_unique _ _ _ current); [done|by apply bool_decide_eq_true|].
    intros j y Hj Hy. apply bool_decide_eq_true in Hy.
    eapply (NoDup_lookup _ _ _ _ (enabled_ids_NoDup _ Hnd)); rewrite list_lookup_fmap.
    - fold enabled. rewrite Hj. simpl. by rewrite Hy.
    - fold enabled. by rewrite Ha. }
  assert (forall k, 0 <= k ->
            match array_get enabled (Some k) with
            | Some nextTab => handleTabClick (tab_id nextTab) (tab_disabled nextTab)
            | None => None
            end = tab_id <$> enabled !! Z.to_nat k) as Hget.
  { intros k Hk. unfold array_get. destruct (k <? 0) eqn:Hneg; [lia|].
    destruct (enabled !! Z.to_nat k) as [next|] eqn:Hnext; [|done].
    apply list_elem_of_lookup_2, list_elem_of_filter in Hnext as [Hen _].
    unfold handleTabClick. by rewrite Hen. }
  assert (0 < len) as Hlen by (unfold len; lia).
  unfold handleKeyDown, forward_key, backward_key. rewrite Hi. fold enabled.
  rewrite Hfind. unfold js_rem. fold len.
  destruct (len =? 0) eqn:Hz; [lia|].
  split.
  - rewrite bool_decide_eq_true_2 by done.
    rewrite Z.rem_mod_nonneg by lia. apply Hget. apply Z.mod_pos_bound. lia.
  - rewrite bool_decide_eq_false_2 by (by destruct (bool_decide (orientation = horizontal))).
    rewrite bool_decide_eq_true_2 by done.
    rewrite Z.rem_mod_nonneg by lia.
    replace (Z.of_nat a - 1 + len) with (Z.of_nat a - 1 + 1 * len) by lia.
    rewrite Z_mod_plus_full. apply Hget. apply Z.mod_pos_bound. lia.
Qed.

(** X14. With distinct tab ids, the arrow keys of [Tabs] undo each
    other on enabled tabs: if the forward arrow on an enabled tab activates
    a tab, the backward arrow on that tab activates the first one again,
    and the other way round; the moves wrap around the ends of the list. *)
Theorem tabs_arrows_undo_each_other tabs orientation i j ti tj :
  NoDup (tab_id <$> tabs) ->
  tabs !! i = Some ti -> tab_disabled ti = false ->
  tabs !! j = Some tj ->
  (handleKeyDown tabs orientation (forward_key orientation) i = Some (tab_id tj) ->
   handleKeyDown tabs orientation (backward_key orientation) j = Some (tab_id ti)) /\
  (handleKeyDown tabs orientation (backward_key orientation) i = Some (tab_id tj) ->
   handleKeyDown tabs orientation (forward_key orientation) j = Some (tab_id ti)).
Proof.
  intros Hnd Hi Hen Hj.
  set (enabled := filter (fun tab => tab_disabled tab = false) tabs).
  assert (ti ∈ enabled) as Hin.
  { apply list_elem_of_filter. split; [done|]. by eapply list_elem_of_lookup_2. }
  apply list_elem_of_lookup_1 in Hin as [a Ha].
  pose proof (lookup_lt_Some _ _ _ Ha) as Hlt.
  destruct (handleKeyDown_arrows tabs orientation i ti a Hnd Hi Ha) as [Hf Hb].
  fold enabled in Hf, Hb.
  assert (forall b, tab_id <$> enabled !! b = Some (tab_id tj) -> enabled !! b = Some tj)
    as Hsame.
  { intros b Hb'. destruct (enabled !! b) as [next|] eqn:Hnext; [|done].
    simpl in Hb'. f_equal.
    apply (same_id_same_tab tabs); [done| |by eapply list_elem_of_lookup_2|congruence].
    apply list_elem_of_lookup_2, list_elem_of_filter in Hnext. tauto. }
  set (len := Z.of_nat (length enabled)) in *.
  assert (0 < len) as Hlen by (unfold len; lia).
  split; intros H.
  - rewrite Hf in H. apply Hsame in H.
    destruct (handleKeyDown_arrows tabs orientation j tj _ Hnd Hj H) as [_ ->].
    fold enabled len.
    pose proof (Z.mod_pos_bound (Z.of_nat a + 1) len Hlen).
    replace (Z.to_nat ((Z.of_nat (Z.to_nat ((Z.of_nat a + 1) mod len)) - 1) mod len)) with a;
      [by rewrite Ha|].
    rewrite Z2Nat.id by lia.
    destruct (decide (Z.of_nat a + 1 < len)).
    + rewrite (Z.mod_small (Z.of_nat a + 1)) by lia.
      replace (Z.of_nat a + 1 - 1) with (Z.of_nat a) by lia.
      rewrite Z.mod_small by lia. lia.
    + assert (Z.of_nat a + 1 = len) as -> by lia.
      rewrite Z_mod_same_full.
      replace (0 - 1) with (len - 1 + (-1) * len) by lia.
      rewrite Z_mod_plus_full, Z.mod_small by lia. lia.
  - rewrite Hb in H. apply Hsame in H.
    destruct (handleKeyDown_arrows tabs orientation j tj _ Hnd Hj H) as [-> _].
    fold enabled len.
    pose proof (Z.mod_pos_bound (Z.of_nat a - 1) len Hlen).
    replace (Z.to_nat ((Z.of_nat (Z.to_nat ((Z.of_nat a - 1) mod len)) + 1) mod len)) with a;
      [by rewrite Ha|].
    rewrite Z2Nat.id by lia.
    destruct (decide (1 <= Z.of_nat a)).
    + rewrite (Z.mod_small (Z.of_nat a - 1)) by lia.
      replace (Z.of_nat a - 1 + 1) with (Z.of_nat a) by lia.
      rewrite Z.mod_small by lia. lia.
    + assert (a = 0%nat) as -> by lia.
      replace (Z.of_nat 0 - 1) with (len - 1 + (-1) * len) by lia.
      rewrite Z_mod_plus_full, (Z.mod_small (len - 1)) by lia.
      replace (len - 1 + 1) with len by lia.
      rewrite Z_mod_same_full. lia.
Qed.

(** [number_to_string] prints the decimal representation of every
    non-negative integer. *)
Lemma number_to_string_decimal n :
  0 <= n -> exists ds, number_to_string n = string_of_list_ascii ds /\ is_decimal_of ds n.
Proof.
  intros Hn. unfold number_to_string. eexists. split; [reflexivity|].
  destruct (n =? 0) eqn:Hz.
  - apply Z.eqb_eq in Hz as ->. by vm_compute.
  - apply Z.eqb_neq in Hz.
    assert (0 < n < 10 ^ Z.of_nat (S (Z.to_nat (Z.log2 n)))) as Hb.
    { split; [lia|]. pose proof (Z.log2_spec n ltac:(lia)) as [_ Hlt].
      pose proof (Z.log2_nonneg n).
      replace (Z.of_nat (S (Z.to_nat (Z.log2 n)))) with (Z.succ (Z.log2 n)) by lia.
      eapply Z.lt_le_trans; [exact Hlt|]. apply Z.pow_le_mono_l. lia. }
    split; [|split].
    + by apply push_digits_digits; [lia|].
    + rewrite push_digits_value by lia.
      change (decimal_value []) with 0. change (Z.of_nat (length (@nil ascii))) with 0. lia.
    + destruct (push_digits_leading _ n [] Hb) as (c & rest & -> & Hc). by destruct rest.
Qed.

(** ** JoinGroupButton *)

(** X15. [JoinGroupButton] never renders the Join Group button
    disabled, and it offers the join flow (the Join Group button or the
    confirmation dialog) exactly when the user is eligible: not a member,
    group not full, group not active, wallet connected; otherwise it
    renders a disabled button. *)
Theorem joinGroupButton_offers_join_iff_eligible
    (maxMembers currentMembers : Z) (isActive isMember : bool) (walletStatus : string)
    (loading : bool) (error : option string) (showConfirm : bool) :
  let view := JoinGroupButton maxMembers currentMembers isActive isMember walletStatus
                loading error showConfirm in
  (forall disabled, view = JoinButton disabled -> disabled = false) /\
  (isEligible maxMembers currentMembers isActive isMember walletStatus = true <->
   (exists disabled, view = JoinButton disabled) \/
   (exists l e, view = ConfirmDialog l e)) /\
  (isEligible maxMembers currentMembers isActive isMember walletStatus = false <->
   exists label, view = DisabledButton label).
Proof.
  unfold JoinGroupButton, isEligible.
  destruct isMember, (isFull maxMembers currentMembers), isActive,
    (bool_decide (walletStatus = "connected"%string)), showConfirm; cbn;
    (split; [intros d Hd; by simplify_eq|]);
    (split;
     [split;
      [intros H; try done;
       first [left; eexists; reflexivity | right; eexists; eexists; reflexivity]
      |intros [[d H]|(l & e & H)]; by simplify_eq]
     |split;
      [intros H; try done; eexists; reflexivity
      |intros [label H]; by simplify_eq]]).
Qed.

(** ** CycleProgress *)

Lemma rendered_snoc rs r :
  rendered (rs ++ [r]) = Some (useMemo_timeRemaining (rendered rs) r).
Proof. unfold rendered. by rewrite foldl_app. Qed.

(** The memo cell holds the deadline object of the last render and the
    value of the callback at a render with that object. *)
Lemma rendered_cell rs :
  match rendered rs with
  | None => rs = []
  | Some (dependency, value) =>
      (exists r', last rs = Some r' /\ dependency = date_object (render_deadline r')) /\
      exists r0, r0 ∈ rs /\ dependency = date_object (render_deadline r0) /\
                 value = timeRemaining (getTime (render_deadline r0)) (memo_clock r0)
  end.
Proof.
  induction rs as [|r rs IH] using rev_ind; [done|].
  rewrite rendered_snoc. unfold useMemo_timeRemaining.
  destruct (rendered rs) as [[dependency value]|].
  - destruct IH as [_ (r0 & Hin & Hdep & Hval)].
    case_bool_decide as Hsame.
    + split; [exists r; by rewrite last_snoc|].
      exists r0. split; [|done]. apply elem_of_app. by left.
    + split; [exists r; by rewrite last_snoc|].
      exists r. split; [|done]. apply elem_of_app. right. by apply list_elem_of_singleton.
  - split; [exists r; by rewrite last_snoc|].
    exists r. split; [|done]. apply elem_of_app. right. by apply list_elem_of_singleton.
Qed.

(** The callback at a clock read: Ended when the deadline is not in the
    future, otherwise the time left rounded down to the unit shown. *)
Lemma timeRemaining_shape (deadline now : Z) :
  let diff := deadline - now in
  let MINUTE := 60000 in
  let HOUR := 3600000 in
  let DAY := 86400000 in
  (diff <= 0 -> timeRemaining deadline now = "Ended"%string) /\
  (0 < diff ->
   (DAY <= diff /\
    exists d h,
      timeRemaining deadline now
      = (number_to_string d +:+ "d " +:+ number_to_string h +:+ "h")%string /\
      1 <= d /\ 0 <= h < 24 /\
      d * DAY + h * HOUR <= diff < d * DAY + (h + 1) * HOUR) \/
   (HOUR <= diff < DAY /\
    exists h,
      timeRemaining deadline now = (number_to_string h +:+ "h")%string /\
      1 <= h < 24 /\ h * HOUR <= diff < (h + 1) * HOUR) \/
   (diff < HOUR /\
    exists m,
      timeRemaining deadline now = (number_to_string m +:+ "m")%string /\
      0 <= m < 60 /\ m * MINUTE <= diff < (m + 1) * MINUTE)).
Proof.
  intros diff MINUTE HOUR DAY. unfold timeRemaining. fold diff.
  change (1000 * 60 * 60 * 24) with DAY. change (1000 * 60 * 60) with HOUR.
  change (1000 * 60) with MINUTE.
  split.
  - intros H. apply Z.leb_le in H. by rewrite H.
  - intros H. apply Z.leb_gt in H as H'. rewrite H'.
    pose proof (Z.div_mod diff DAY ltac:(done)) as Hd.
    pose proof (Z.mod_pos_bound diff DAY ltac:(done)) as Hdm.
    pose proof (Z.div_mod (diff mod DAY) HOUR ltac:(done)) as Hh.
    pose proof (Z.mod_pos_bound (diff mod DAY) HOUR ltac:(done)) as Hhm.
    pose proof (Z.div_mod (diff mod HOUR) MINUTE ltac:(done)) as Hm.
    pose proof (Z.mod_pos_bound (diff mod HOUR) MINUTE ltac:(done)) as Hmm.
    pose proof (Z.div_mod diff HOUR ltac:(done)) as Hdh.
    pose proof (Z.mod_pos_bound diff HOUR ltac:(done)) as Hdhm.
    unfold DAY, HOUR, MINUTE in *.
    destruct (0 <? diff / 86400000) eqn:Hdays.
    + apply Z.ltb_lt in Hdays. left. split; [lia|].
      eexists. eexists. split; [reflexivity|]. lia.
    + apply Z.ltb_ge in Hdays. right.
      destruct (0 <? diff mod 86400000 / 3600000) eqn:Hhours.
      * apply Z.ltb_lt in Hhours. left. split; [lia|].
        eexists. split; [reflexivity|]. lia.
      * apply Z.ltb_ge in Hhours. right. split; [lia|].
        eexists. split; [reflexivity|]. lia.
Qed.

(** X16. [CycleProgress] shows the time remaining as of the render at
    which the deadline object last changed, not as of the current render.
    Over the renders since the mount, with Date objects that are not
    mutated and a clock that does not run back, the text shown is the value
    of the callback at the clock read of a render with the same deadline
    object, not later than the clock read of [isOverdue]: Ended when the
    deadline was not in the future then (and so it is not in the future
    now), otherwise the time left then, rounded down to the unit shown
    (days and hours from one day on, hours from one hour on, minutes below
    that). The time is marked overdue exactly when the deadline is before
    the clock read of the render. At the first render and after a render
    with another deadline object the text is computed at this render; after
    a render with the same object it is the text of that render, whatever
    the clock. *)
Theorem cycleProgress_label_as_of_deadline_change (rs : list Render) (r : Render) :
  (forall r1 r2, r1 ∈ rs ++ [r] -> r2 ∈ rs ++ [r] ->
     date_object (render_deadline r1) = date_object (render_deadline r2) ->
     getTime (render_deadline r1) = getTime (render_deadline r2)) ->
  (forall r0, r0 ∈ rs ++ [r] -> memo_clock r0 <= render_clock r) ->
  let deadline := getTime (render_deadline r) in
  let view := snd (CycleProgress (rendered rs) r) in
  let MINUTE := 60000 in
  let HOUR := 3600000 in
  let DAY := 86400000 in
  (exists r0,
     r0 ∈ rs ++ [r] /\
     date_object (render_deadline r0) = date_object (render_deadline r) /\
     time_value view = timeRemaining deadline (memo_clock r0) /\
     let diff := deadline - memo_clock r0 in
     (diff <= 0 -> time_value view = "Ended"%string /\ deadline <= render_clock r) /\
     (0 < diff ->
      (DAY <= diff /\
       exists d h,
         time_value view
         = (number_to_string d +:+ "d " +:+ number_to_string h +:+ "h")%string /\
         1 <= d /\ 0 <= h < 24 /\
         d * DAY + h * HOUR <= diff < d * DAY + (h + 1) * HOUR) \/
      (HOUR <= diff < DAY /\
       exists h,
         time_value view = (number_to_string h +:+ "h")%string /\
         1 <= h < 24 /\ h * HOUR <= diff < (h + 1) * HOUR) \/
      (diff < HOUR /\
       exists m,
         time_value view = (number_to_string m +:+ "m")%string /\
         0 <= m < 60 /\ m * MINUTE <= diff < (m + 1) * MINUTE))) /\
  (overdue view = true <-> deadline < render_clock r) /\
  (rs = [] -> time_value view = timeRemaining deadline (memo_clock r)) /\
  (forall r', last rs = Some r' ->
     (date_object (render_deadline r') <> date_object (render_deadline r) ->
      time_value view = timeRemaining deadline (memo_clock r)) /\
     (date_object (render_deadline r') = date_object (render_deadline r) ->
      time_value view = time_value (snd (CycleProgress (rendered (removelast rs)) r')))).
Proof.
  intros Hdates Hclock deadline view MINUTE HOUR DAY.
  assert (r ∈ rs ++ [r]) as Hr by (apply elem_of_app; right; by apply list_elem_of_singleton).
  assert (exists r0,
     r0 ∈ rs ++ [r] /\
     date_object (render_deadline r0) = date_object (render_deadline r) /\
     time_value view = timeRemaining deadline (memo_clock r0)) as (r0 & Hin & Hobj & Hlabel).
  { subst view. unfold CycleProgress, useMemo_timeRemaining. cbn [snd time_value].
    pose proof (rendered_cell rs) as Hcell.
    destruct (rendered rs) as [[dependency value]|]; [|by exists r].
    destruct Hcell as [_ (r0 & Hin & Hdep & Hval)].
    case_bool_decide as Hsame; [|by exists r].
    assert (r0 ∈ rs ++ [r]) as Hin0 by (apply elem_of_app; by left).
    exists r0. split; [done|]. split; [congruence|].
    cbn [snd]. unfold deadline. rewrite <- (Hdates r0 r Hin0 Hr) by congruence. done. }
  split; [|split; [|split]].
  - exists r0. split; [done|]. split; [done|]. split; [done|].
    intros diff. rewrite Hlabel.
    destruct (timeRemaining_shape deadline (memo_clock r0)) as [Hended Hleft].
    split; [|exact Hleft].
    intros Hdiff. split; [by apply Hended|].
    specialize (Hclock r0 Hin). unfold diff in Hdiff. lia.
  - subst view. cbn [CycleProgress snd overdue]. unfold isOverdue. apply Z.ltb_lt.
  - intros ->. done.
  - intros r' Hlast.
    apply last_Some in Hlast as [rs' ->].
    rewrite removelast_last.
    subst view. unfold CycleProgress. cbn [snd time_value].
    rewrite rendered_snoc. unfold useMemo_timeRemaining at 1 3.
    destruct (useMemo_timeRemaining (rendered rs') r') as [dependency value] eqn:Hmemo.
    assert (dependency = date_object (render_deadline r')) as ->.
    { unfold useMemo_timeRemaining in Hmemo.
      destruct (rendered rs') as [[d v]|]; [case_bool_decide|]; by simplify_eq. }
    split; intros Hobj'.
    + by rewrite bool_decide_eq_false_2.
    + by rewrite bool_decide_eq_true_2.
Qed.

(** ** GroupList: the current page stays valid *)

Section GroupListPagesFacts.

Context {A : Type}.
Variable sortedGroups : string -> SortField -> SortOrder -> list A.

Lemma groupList_step_valid st a :
  match a with ChoosePageSize n => 1 <= n | _ => True end ->
  page_valid sortedGroups st -> page_valid sortedGroups (groupList_step sortedGroups st a).
Proof.
  intros Ha [Hp Hc]. destruct a as [value|field|n|page]; cbn.
  - split; [done|by left].
  - split; [done|by left].
  - split; [done|by left].
  - unfold clickPage, handlePageChange.
    destruct (page <? 1) eqn:H1; cbn; [by split|].
    destruct (_ <? page) eqn:H2; cbn; [by split|].
    destruct (page =? currentPage st) eqn:H3; cbn; [by split|].
    split; [done|]. right. unfold shownGroups in *. cbn. apply Z.ltb_ge in H1, H2. lia.
Qed.

Lemma groupList_after_valid actions : forall st,
  positive_page_sizes actions ->
  page_valid sortedGroups st ->
  page_valid sortedGroups (groupList_after sortedGroups actions st).
Proof.
  induction actions as [|a actions IH]; intros st Hpos Hv; [done|].
  apply Forall_cons in Hpos as [Ha Hpos]. cbn.
  apply IH; [done|]. by apply groupList_step_valid.
Qed.

End GroupListPagesFacts.

(** X17. Starting on page 1 with a page size of at least 1 and choosing
    page sizes of at least 1, whatever the user searches, sorts and clicks
    in the pagination, [GroupList] is on page 1 or on a page between 1 and
    totalPages of the list it shows, so the page it shows is empty only
    when that list is: the empty state never hides groups that match. *)
Theorem groupList_page_never_stale {A} (sortedGroups : string -> SortField -> SortOrder -> list A)
    (actions : list GroupListAction) (st : GroupListState) :
  currentPage st = 1 ->
  1 <= pageSize st ->
  positive_page_sizes actions ->
  let st' := groupList_after sortedGroups actions st in
  1 <= pageSize st' /\
  1 <= currentPage st' /\
  (shownGroups sortedGroups st' <> [] ->
   currentPage st' <= totalPages (shownGroups sortedGroups st') (pageSize st') /\
   shownPage sortedGroups st' <> []).
Proof.
  intros Hc Hp Hpos st'.
  assert (page_valid sortedGroups st') as [Hp' Hc'].
  { apply groupList_after_valid; [done|]. split; [done|by left]. }
  split; [done|]. split; [lia|].
  intros Hne.
  pose proof (Math_ceil_div_bounds (Z.of_nat (length (shownGroups sortedGroups st')))
                (pageSize st') Hp') as Hb.
  fold (totalPages (shownGroups sortedGroups st') (pageSize st')) in Hb.
  assert (1 <= Z.of_nat (length (shownGroups sortedGroups st'))) as Hlen.
  { destruct (shownGroups sortedGroups st'); [done|simpl; lia]. }
  assert (1 <= currentPage st' <= totalPages (shownGroups sortedGroups st') (pageSize st'))
    as Hrange by nia.
  split; [lia|].
  unfold shownPage, paginatedGroups. cbn [negb]. rewrite slice_take_drop by nia.
  intros Hnil. apply (f_equal length) in Hnil.
  rewrite length_take, length_drop in Hnil. simpl in Hnil. nia.
Qed.

(** ** The further properties at the samples *)

Lemma contribute_checks_amount_then_duplicate_witness :
  contribute 7 11%N sample_free_env = (Err InvalidAmount, sample_free_env) /\
  contribute 7 11%N (snd (contribute 7 11%N sample_env))
  = (Err AlreadyContributed, snd (contribute 7 11%N sample_env)).
Proof.
  split.
  - apply (proj1 (contribute_checks_amount_then_duplicate 7 11%N sample_free_env
                    (mkGroup 7 1%N "savers" 0 3600 3 2 0 (Some 1000)) Active
                    ltac:(vm_compute; reflexivity)
                    ltac:(vm_compute; eexists; reflexivity)
                    ltac:(vm_compute; reflexivity) ltac:(vm_compute; reflexivity)
                    ltac:(reflexivity))).
    simpl. lia.
  - apply (proj2 (contribute_checks_amount_then_duplicate 7 11%N
                    (snd (contribute 7 11%N sample_env)) sample_group Active
                    ltac:(vm_compute; reflexivity)
                    ltac:(vm_compute; eexists; reflexivity)
                    ltac:(vm_compute; reflexivity) ltac:(vm_compute; reflexivity)
                    ltac:(reflexivity))).
    + simpl. lia.
    + vm_compute. eexists. reflexivity.
Defined.

Lemma contribute_returns_when_typed_and_in_range_witness :
  fst (contribute 7 11%N sample_env) = Ok tt \/
  exists e, fst (contribute 7 11%N sample_env) = Err e.
Proof.
  apply (contribute_returns_when_typed_and_in_range 7 11%N sample_env).
  - vm_compute. reflexivity.
  - intros v Hv. vm_compute in Hv. injection Hv as <-. eexists. reflexivity.
  - vm_compute. eexists. reflexivity.
  - intros g Hg. vm_compute in Hg. injection Hg as <-.
    exists 0, 0. vm_compute. repeat split.
Defined.

Lemma run_keeps_configuration_witness :
  storage (snd (run sample_calls sample_env)) !! group_data 7
  = storage sample_env !! group_data 7.
Proof.
  apply (proj1 (run_keeps_configuration sample_calls sample_env
                  (fst (run sample_calls sample_env)) (snd (run sample_calls sample_env))
                  (surjective_pairing _))).
  reflexivity.
Defined.

Lemma run_emits_one_made_per_accepted_witness :
  made_for 7 (events (snd (run sample_calls sample_env)))
  = made_for 7 (events sample_env)
    + accepted 7 sample_calls (fst (run sample_calls sample_env)).
Proof.
  apply (run_emits_one_made_per_accepted sample_calls sample_env).
  apply surjective_pairing.
Defined.

Lemma run_closed_group_accepts_nothing_witness :
  accepted 7 sample_calls (fst (run sample_calls sample_closed_env)) = 0.
Proof.
  apply (run_closed_group_accepts_nothing sample_calls sample_closed_env
           (fst (run sample_calls sample_closed_env))
           (snd (run sample_calls sample_closed_env)) 7).
  - intros status H. vm_compute in H. injection H as <-. reflexivity.
  - apply surjective_pairing.
Defined.

Lemma run_accepts_each_contributor_once_witness :
  NoDup (accepted_contributors 7 sample_calls (fst (run sample_calls sample_env))).
Proof.
  apply (run_accepts_each_contributor_once sample_calls sample_env
           (fst (run sample_calls sample_env)) (snd (run sample_calls sample_env))).
  apply surjective_pairing.
Defined.


Lemma getVisiblePages_well_formed_witness :
  marks_gaps 0 (getVisiblePages 5 10 5) /\
  head (getVisiblePages 5 10 5) = Some (PageNumber 1) /\
  last (getVisiblePages 5 10 5) = Some (PageNumber 10) /\
  PageNumber (safePage 5 10) ∈ getVisiblePages 5 10 5 /\
  1 <= safePage 5 10 <= 10 /\
  Z.of_nat (length (getVisiblePages 5 10 5)) <= 5 + 5.
Proof. apply (getVisiblePages_well_formed 5 10 5); lia. Defined.

Lemma groupList_pages_partition_witness :
  concat ((fun page => paginatedGroups sample_groups page 3 true)
            <$> seqZ 1 (totalPages sample_groups 3))
  = sample_groups.
Proof. apply (proj1 (groupList_pages_partition sample_groups 3 ltac:(lia))). Defined.

Lemma pagination_range_matches_page_witness :
  Z.of_nat (length (paginatedGroups sample_groups 3 3 true))
  = endItem 3 (totalPages sample_groups 3) 3 7 - startItem 3 (totalPages sample_groups 3) 3 7 + 1.
Proof.
  apply (pagination_range_matches_page sample_groups 3 3 ltac:(lia)).
  vm_compute. split; discriminate.
Defined.

Lemma tabs_arrows_undo_each_other_witness :
  handleKeyDown sample_tabs horizontal (backward_key horizontal) 2 = Some "overview"%string.
Proof.
  assert (NoDup (tab_id <$> sample_tabs)) as Hids.
  { simpl. repeat (apply NoDup_cons; split;
      [rewrite ?elem_of_cons, elem_of_nil; intros Hin; repeat destruct Hin as [Hin|Hin]; done|]).
    apply NoDup_nil_2. }
  apply (proj1 (tabs_arrows_undo_each_other sample_tabs horizontal 0 2
                  (mkTab "overview" false) (mkTab "history" false)
                  Hids eq_refl eq_refl eq_refl)).
  vm_compute. reflexivity.
Defined.

Lemma groupList_page_never_stale_witness :
  let st' := groupList_after (fun _ _ _ => sample_groups) sample_actions
               (mkGroupListState "" 1 10 SortName asc) in
  1 <= pageSize st' /\
  1 <= currentPage st' /\
  (shownGroups (fun _ _ _ => sample_groups) st' <> [] ->
   currentPage st' <= totalPages (shownGroups (fun _ _ _ => sample_groups) st') (pageSize st') /\
   shownPage (fun _ _ _ => sample_groups) st' <> []).
Proof.
  apply (groupList_page_never_stale (fun _ _ _ => sample_groups) sample_actions
           (mkGroupListState "" 1 10 SortName asc)).
  - reflexivity.
  - simpl. lia.
  - repeat constructor. simpl. lia.
Defined.

Lemma cycleProgress_label_as_of_deadline_change_witness :
  let rs := [mkRender (mkDate 1 60000) 30000 30001] in
  let r := mkRender (mkDate 1 60000) 90000 90001 in
  time_value (snd (CycleProgress (rendered rs) r)) = "0m"%string /\
  overdue (snd (CycleProgress (rendered rs) r)) = true.
Proof.
  cbn zeta.
  assert (forall r0,
    r0 ∈ [mkRender (mkDate 1 60000) 30000 30001] ++ [mkRender (mkDate 1 60000) 90000 90001] ->
    getTime (render_deadline r0) = 60000 /\ memo_clock r0 <= 90001) as Hall.
  { intros r0 Hin. cbn [app] in Hin.
    apply elem_of_cons in Hin as [->|Hin]; [cbn; lia|].
    apply elem_of_cons in Hin as [->|Hin]; [cbn; lia|].
    by apply elem_of_nil in Hin. }
  destruct (cycleProgress_label_as_of_deadline_change
              [mkRender (mkDate 1 60000) 30000 30001]
              (mkRender (mkDate 1 60000) 90000 90001))
    as (_ & Hoverdue & _ & Hlast).
  - intros r1 r2 H1 H2 _.
    destruct (Hall r1 H1) as [-> _]. destruct (Hall r2 H2) as [-> _]. reflexivity.
  - intros r0 H0. apply (Hall r0 H0).
  - split.
    + destruct (Hlast _ eq_refl) as [_ Hsame]. rewrite Hsame by reflexivity.
      vm_compute. reflexivity.
    + apply Hoverdue. cbn. lia.
Defined.
